(** * Birthday Celebration App (script.js): name editing, persistence, replay

    A shallow embedding of [src/script.js].  The script is DOM-event wiring
    around two pieces of state ([state.currentName], [state.isAnimating]),
    one [localStorage] key and a handful of one-shot timers.  The embedding
    keeps that shape:

    - JavaScript strings are lists of UTF-16 code units ([jsstring]), so that
      [.length] is [length] and [.trim()] strips exactly the code units that
      ECMAScript calls WhiteSpace or LineTerminator;
    - the [elements] object is a record telling which [getElementById]
      lookups were non-null, so every [if (!elements.x) return] and every
      [elements.x?.f()] of the source is a real branch, and an unguarded
      [elements.x.f()] on a missing element throws;
    - the page is a record [Dom] of the properties the script reads or
      writes, [localStorage] is a finite map with the host's verdict on
      writes, and [setTimeout] puts a callback in a queue kept in firing
      order, against a clock counted in milliseconds;
    - handlers are computations in a small state-and-exception monad [Js];
      a handler that throws keeps the mutations made before the throw and
      the fault is reported to the [window] error listener.

    Left out, as they touch none of the above: the resize handler and the
    focus trap (particle positions and focus inside the dialog; a change of
    focus is the event [focus_moved]), the notification style sheet, the
    intersection observer, theme detection, the audio tones, the service
    worker and the console. *)

From Stdlib Require Import NArith Ascii String.
From stdpp Require Import gmap strings list fin_maps sorting.

Local Open Scope N_scope.

(** ** Strings *)

Definition jsstring : Type := list N.

(** A literal of the source, as code units. *)
Definition js (s : string) : jsstring := map N_of_ascii (list_ascii_of_string s).
Arguments js : simpl never.

(** ECMAScript WhiteSpace and LineTerminator code points, the ones
    [String.prototype.trim] strips: TAB, LF, VT, FF, CR, SP, NBSP, the other
    space separators (U+1680, U+2000..U+200A, U+202F, U+205F, U+3000), LS, PS
    and ZWNBSP. *)
Definition isWhiteSpace (c : N) : bool :=
  (9 <=? c) && (c <=? 13) || (c =? 32) || (c =? 160) || (c =? 5760)
  || (8192 <=? c) && (c <=? 8202) || (c =? 8232) || (c =? 8233)
  || (c =? 8239) || (c =? 8287) || (c =? 12288) || (c =? 65279).

Fixpoint trimStart (s : jsstring) : jsstring :=
  match s with
  | [] => []
  | c :: r => if isWhiteSpace c then trimStart r else s
  end.

Definition trimEnd (s : jsstring) : jsstring := rev (trimStart (rev s)).

Definition trim (s : jsstring) : jsstring := trimEnd (trimStart s).

(** Truthiness of a string value: only the empty string is falsy. *)
Definition truthy (s : jsstring) : bool :=
  match s with [] => false | _ :: _ => true end.

(** [a === b] on strings. *)
Definition str_eqb (a b : jsstring) : bool := bool_decide (a = b).

(** LF and CR, the code units a text control does not store as they are. *)
Definition is_newline (c : N) : bool := (c =? 10) || (c =? 13).

(** HTML "strip newlines": what the [value] setter of a single-line
    [<input>] (Text, Search, Telephone, Password) keeps of a string. *)
Definition strip_newlines (s : jsstring) : jsstring :=
  List.filter (λ c, negb (is_newline c)) s.

(** HTML "normalize newlines": the API value of a [<textarea>] has every
    CR LF pair and every other CR replaced by one LF. *)
Fixpoint normalize_newlines (s : jsstring) : jsstring :=
  match s with
  | [] => []
  | c :: s' =>
      if c =? 13 then
        10 :: match s' with
              | d :: s'' =>
                  if d =? 10 then normalize_newlines s''
                  else normalize_newlines s'
              | [] => []
              end
      else c :: normalize_newlines s'
  end.

(** The string has no LF and no CR. *)
Definition no_line_break (s : jsstring) : Prop :=
  Forall (λ c, is_newline c = false) s.

(** ** The page *)

(** The [elements] object: [true] where [document.getElementById] found the
    element.  [messageCard] is the result of
    [elements.messageSection.querySelector('.message-card')].
    [nameInput_textarea] is the one fact about the markup that the script's
    writes to [nameInput.value] depend on: whether the draft field is a
    [<textarea>] or a single-line [<input>]. *)
Module elements.
Record t : Type := mk {
  recipientName : bool;
  changeNameBtn : bool;
  playAnimationBtn : bool;
  nameModal : bool;
  nameInput : bool;
  saveNameBtn : bool;
  cancelBtn : bool;
  closeModal : bool;
  messageSection : bool;
  messageCard : bool;
  cake : bool;
  nameInput_textarea : bool
}.
End elements.

(** Nodes the script creates and appends to [document.body]. *)
Inductive NodeKind : Type :=
| SrAnnouncement      (* div.sr-only, aria-live=polite, aria-atomic=true *)
| SuccessNotification (* showSuccessMessage *)
| ErrorNotification.  (* window error listener *)

Record Node : Type := MkNode {
  node_id : nat;
  node_kind : NodeKind;
  node_text : jsstring;
  node_animation : jsstring
}.

Inductive Focus : Type := FocusNameInput | FocusChangeNameBtn | FocusElsewhere.

Record Dom : Type := MkDom {
  recipientName_textContent : jsstring;
  recipientName_loading : bool;          (* classList has 'loading' *)
  recipientName_animation : jsstring;    (* style.animation *)
  nameModal_active : bool;               (* classList has 'active' *)
  nameInput_value : jsstring;
  nameInput_selected : bool;             (* whole text selected *)
  nameInput_borderColor : jsstring;
  nameInput_boxShadow : jsstring;
  (* nameInput.parentNode: texts of its .error-message descendants in
     document order; None when the input has no parent *)
  nameInput_parentNode : option (list jsstring);
  saveNameBtn_disabled : bool;
  playAnimationBtn_disabled : bool;
  playAnimationBtn_loading : bool;
  (* one counter of beginElement() calls per <animate> under the cake *)
  cake_animate : list nat;
  messageCard_celebration : bool;
  messageCard_success : bool;
  body_overflow : jsstring;              (* document.body.style.overflow *)
  body_children : list Node;
  activeElement : Focus
}.

(** ** Storage and timers *)

(** [localStorage].  [writable] is the host's answer to [setItem]: when it is
    [false] the call throws (QuotaExceededError: storage full or disabled). *)
Record Storage : Type := MkStorage {
  items : gmap string jsstring;
  writable : bool
}.

Definition storageKey : string := "birthdayRecipientName".

(** The closures handed to [setTimeout]. *)
Inductive Callback : Type :=
| LabelUpdate (name : jsstring)  (* updateDisplayedName, 150 ms *)
| AnimationDone                  (* replayAnimation, 4000 ms *)
| SuccessFade (id : nat)         (* showSuccessMessage, 3000 ms *)
| RemoveNode (id : nat).         (* node.remove(): 1000, 300 and 5000 ms *)

(** A pending timer: the time it is due and its callback. *)
Definition Timer : Type := (N * Callback)%type.

Inductive JsError : Type := TypeError | QuotaExceededError.

(** ** Program state *)

Record State : Type := MkState {
  currentName : jsstring;     (* state.currentName *)
  isAnimating : bool;         (* state.isAnimating *)
  document : Dom;
  localStorage : Storage;
  timers : list Timer;        (* in firing order *)
  clock : N;                  (* milliseconds since page load *)
  next_node : nat             (* identity of the next created node *)
}.

Definition set_currentName (v : jsstring) (st : State) : State :=
  MkState v (isAnimating st) (document st) (localStorage st) (timers st)
    (clock st) (next_node st).

Definition set_isAnimating (v : bool) (st : State) : State :=
  MkState (currentName st) v (document st) (localStorage st) (timers st)
    (clock st) (next_node st).

Definition set_document (v : Dom) (st : State) : State :=
  MkState (currentName st) (isAnimating st) v (localStorage st) (timers st)
    (clock st) (next_node st).

Definition set_localStorage (v : Storage) (st : State) : State :=
  MkState (currentName st) (isAnimating st) (document st) v (timers st)
    (clock st) (next_node st).

Definition set_timers (v : list Timer) (st : State) : State :=
  MkState (currentName st) (isAnimating st) (document st) (localStorage st) v
    (clock st) (next_node st).

Definition set_clock (v : N) (st : State) : State :=
  MkState (currentName st) (isAnimating st) (document st) (localStorage st)
    (timers st) v (next_node st).

Definition set_next_node (v : nat) (st : State) : State :=
  MkState (currentName st) (isAnimating st) (document st) (localStorage st)
    (timers st) (clock st) v.

Definition with_document (f : Dom -> Dom) (st : State) : State :=
  set_document (f (document st)) st.

(** Field updates of [Dom]: each rebuilds the record with one field replaced. *)

Definition set_recipientName_textContent (v : jsstring) (d : Dom) : Dom :=
  MkDom v (recipientName_loading d) (recipientName_animation d)
    (nameModal_active d) (nameInput_value d) (nameInput_selected d)
    (nameInput_borderColor d) (nameInput_boxShadow d) (nameInput_parentNode
    d) (saveNameBtn_disabled d) (playAnimationBtn_disabled d)
    (playAnimationBtn_loading d) (cake_animate d) (messageCard_celebration
    d) (messageCard_success d) (body_overflow d) (body_children d)
    (activeElement d).

Definition set_recipientName_loading (v : bool) (d : Dom) : Dom :=
  MkDom (recipientName_textContent d) v (recipientName_animation d)
    (nameModal_active d) (nameInput_value d) (nameInput_selected d)
    (nameInput_borderColor d) (nameInput_boxShadow d) (nameInput_parentNode
    d) (saveNameBtn_disabled d) (playAnimationBtn_disabled d)
    (playAnimationBtn_loading d) (cake_animate d) (messageCard_celebration
    d) (messageCard_success d) (body_overflow d) (body_children d)
    (activeElement d).

Definition set_recipientName_animation (v : jsstring) (d : Dom) : Dom :=
  MkDom (recipientName_textContent d) (recipientName_loading d) v
    (nameModal_active d) (nameInput_value d) (nameInput_selected d)
    (nameInput_borderColor d) (nameInput_boxShadow d) (nameInput_parentNode
    d) (saveNameBtn_disabled d) (playAnimationBtn_disabled d)
    (playAnimationBtn_loading d) (cake_animate d) (messageCard_celebration
    d) (messageCard_success d) (body_overflow d) (body_children d)
    (activeElement d).

Definition set_nameModal_active (v : bool) (d : Dom) : Dom :=
  MkDom (recipientName_textContent d) (recipientName_loading d)
    (recipientName_animation d) v (nameInput_value d) (nameInput_selected d)
    (nameInput_borderColor d) (nameInput_boxShadow d) (nameInput_parentNode
    d) (saveNameBtn_disabled d) (playAnimationBtn_disabled d)
    (playAnimationBtn_loading d) (cake_animate d) (messageCard_celebration
    d) (messageCard_success d) (body_overflow d) (body_children d)
    (activeElement d).

Definition set_nameInput_value (v : jsstring) (d : Dom) : Dom :=
  MkDom (recipientName_textContent d) (recipientName_loading d)
    (recipientName_animation d) (nameModal_active d) v (nameInput_selected
    d) (nameInput_borderColor d) (nameInput_boxShadow d)
    (nameInput_parentNode d) (saveNameBtn_disabled d)
    (playAnimationBtn_disabled d) (playAnimationBtn_loading d) (cake_animate
    d) (messageCard_celebration d) (messageCard_success d) (body_overflow d)
    (body_children d) (activeElement d).

Definition set_nameInput_selected (v : bool) (d : Dom) : Dom :=
  MkDom (recipientName_textContent d) (recipientName_loading d)
    (recipientName_animation d) (nameModal_active d) (nameInput_value d) v
    (nameInput_borderColor d) (nameInput_boxShadow d) (nameInput_parentNode
    d) (saveNameBtn_disabled d) (playAnimationBtn_disabled d)
    (playAnimationBtn_loading d) (cake_animate d) (messageCard_celebration
    d) (messageCard_success d) (body_overflow d) (body_children d)
    (activeElement d).

Definition set_nameInput_borderColor (v : jsstring) (d : Dom) : Dom :=
  MkDom (recipientName_textContent d) (recipientName_loading d)
    (recipientName_animation d) (nameModal_active d) (nameInput_value d)
    (nameInput_selected d) v (nameInput_boxShadow d) (nameInput_parentNode
    d) (saveNameBtn_disabled d) (playAnimationBtn_disabled d)
    (playAnimationBtn_loading d) (cake_animate d) (messageCard_celebration
    d) (messageCard_success d) (body_overflow d) (body_children d)
    (activeElement d).

Definition set_nameInput_boxShadow (v : jsstring) (d : Dom) : Dom :=
  MkDom (recipientName_textContent d) (recipientName_loading d)
    (recipientName_animation d) (nameModal_active d) (nameInput_value d)
    (nameInput_selected d) (nameInput_borderColor d) v (nameInput_parentNode
    d) (saveNameBtn_disabled d) (playAnimationBtn_disabled d)
    (playAnimationBtn_loading d) (cake_animate d) (messageCard_celebration
    d) (messageCard_success d) (body_overflow d) (body_children d)
    (activeElement d).

Definition set_nameInput_parentNode (v : option (list jsstring)) (d : Dom) : Dom :=
  MkDom (recipientName_textContent d) (recipientName_loading d)
    (recipientName_animation d) (nameModal_active d) (nameInput_value d)
    (nameInput_selected d) (nameInput_borderColor d) (nameInput_boxShadow d)
    v (saveNameBtn_disabled d) (playAnimationBtn_disabled d)
    (playAnimationBtn_loading d) (cake_animate d) (messageCard_celebration
    d) (messageCard_success d) (body_overflow d) (body_children d)
    (activeElement d).

Definition set_saveNameBtn_disabled (v : bool) (d : Dom) : Dom :=
  MkDom (recipientName_textContent d) (recipientName_loading d)
    (recipientName_animation d) (nameModal_active d) (nameInput_value d)
    (nameInput_selected d) (nameInput_borderColor d) (nameInput_boxShadow d)
    (nameInput_parentNode d) v (playAnimationBtn_disabled d)
    (playAnimationBtn_loading d) (cake_animate d) (messageCard_celebration
    d) (messageCard_success d) (body_overflow d) (body_children d)
    (activeElement d).

Definition set_playAnimationBtn_disabled (v : bool) (d : Dom) : Dom :=
  MkDom (recipientName_textContent d) (recipientName_loading d)
    (recipientName_animation d) (nameModal_active d) (nameInput_value d)
    (nameInput_selected d) (nameInput_borderColor d) (nameInput_boxShadow d)
    (nameInput_parentNode d) (saveNameBtn_disabled d) v
    (playAnimationBtn_loading d) (cake_animate d) (messageCard_celebration
    d) (messageCard_success d) (body_overflow d) (body_children d)
    (activeElement d).

Definition set_playAnimationBtn_loading (v : bool) (d : Dom) : Dom :=
  MkDom (recipientName_textContent d) (recipientName_loading d)
    (recipientName_animation d) (nameModal_active d) (nameInput_value d)
    (nameInput_selected d) (nameInput_borderColor d) (nameInput_boxShadow d)
    (nameInput_parentNode d) (saveNameBtn_disabled d)
    (playAnimationBtn_disabled d) v (cake_animate d)
    (messageCard_celebration d) (messageCard_success d) (body_overflow d)
    (body_children d) (activeElement d).

Definition set_cake_animate (v : list nat) (d : Dom) : Dom :=
  MkDom (recipientName_textContent d) (recipientName_loading d)
    (recipientName_animation d) (nameModal_active d) (nameInput_value d)
    (nameInput_selected d) (nameInput_borderColor d) (nameInput_boxShadow d)
    (nameInput_parentNode d) (saveNameBtn_disabled d)
    (playAnimationBtn_disabled d) (playAnimationBtn_loading d) v
    (messageCard_celebration d) (messageCard_success d) (body_overflow d)
    (body_children d) (activeElement d).

Definition set_messageCard_celebration (v : bool) (d : Dom) : Dom :=
  MkDom (recipientName_textContent d) (recipientName_loading d)
    (recipientName_animation d) (nameModal_active d) (nameInput_value d)
    (nameInput_selected d) (nameInput_borderColor d) (nameInput_boxShadow d)
    (nameInput_parentNode d) (saveNameBtn_disabled d)
    (playAnimationBtn_disabled d) (playAnimationBtn_loading d) (cake_animate
    d) v (messageCard_success d) (body_overflow d) (body_children d)
    (activeElement d).

Definition set_messageCard_success (v : bool) (d : Dom) : Dom :=
  MkDom (recipientName_textContent d) (recipientName_loading d)
    (recipientName_animation d) (nameModal_active d) (nameInput_value d)
    (nameInput_selected d) (nameInput_borderColor d) (nameInput_boxShadow d)
    (nameInput_parentNode d) (saveNameBtn_disabled d)
    (playAnimationBtn_disabled d) (playAnimationBtn_loading d) (cake_animate
    d) (messageCard_celebration d) v (body_overflow d) (body_children d)
    (activeElement d).

Definition set_body_overflow (v : jsstring) (d : Dom) : Dom :=
  MkDom (recipientName_textContent d) (recipientName_loading d)
    (recipientName_animation d) (nameModal_active d) (nameInput_value d)
    (nameInput_selected d) (nameInput_borderColor d) (nameInput_boxShadow d)
    (nameInput_parentNode d) (saveNameBtn_disabled d)
    (playAnimationBtn_disabled d) (playAnimationBtn_loading d) (cake_animate
    d) (messageCard_celebration d) (messageCard_success d) v (body_children
    d) (activeElement d).

Definition set_body_children (v : list Node) (d : Dom) : Dom :=
  MkDom (recipientName_textContent d) (recipientName_loading d)
    (recipientName_animation d) (nameModal_active d) (nameInput_value d)
    (nameInput_selected d) (nameInput_borderColor d) (nameInput_boxShadow d)
    (nameInput_parentNode d) (saveNameBtn_disabled d)
    (playAnimationBtn_disabled d) (playAnimationBtn_loading d) (cake_animate
    d) (messageCard_celebration d) (messageCard_success d) (body_overflow d)
    v (activeElement d).

Definition set_activeElement (v : Focus) (d : Dom) : Dom :=
  MkDom (recipientName_textContent d) (recipientName_loading d)
    (recipientName_animation d) (nameModal_active d) (nameInput_value d)
    (nameInput_selected d) (nameInput_borderColor d) (nameInput_boxShadow d)
    (nameInput_parentNode d) (saveNameBtn_disabled d)
    (playAnimationBtn_disabled d) (playAnimationBtn_loading d) (cake_animate
    d) (messageCard_celebration d) (messageCard_success d) (body_overflow d)
    (body_children d) v.

(** ** Handlers: state and exceptions *)

(** How a piece of script ends: normally with a value, or by throwing. *)
Inductive Completion (A : Type) : Type :=
| Normal (a : A)
| Throw (e : JsError).
Arguments Normal {A} a.
Arguments Throw {A} e.

(** A computation runs on the state and yields a completion and the state it
    left behind; mutations made before a throw are kept. *)
Definition Js (A : Type) : Type := State -> Completion A * State.

#[export] Instance Js_ret : MRet Js := λ A a st, (Normal a, st).

#[export] Instance Js_bind : MBind Js := λ A B f m st,
  match m st with
  | (Normal a, st') => f a st'
  | (Throw e, st') => (Throw e, st')
  end.

Definition modify (f : State -> State) : Js unit := λ st, (Normal tt, f st).

Definition throw {A : Type} (e : JsError) : Js A := λ st, (Throw e, st).

Definition skip : Js unit := mret tt.

(** A computation that first reads the state. *)
Definition reading {A : Type} (f : State -> Js A) : Js A := λ st, f st st.

(** [cond ? m : skip], where [cond] reads the state. *)
Definition when_st (cond : State -> bool) (m : Js unit) : Js unit :=
  reading (λ st, if cond st then m else skip).

(** ** Host primitives *)

(** The queue is kept in firing order: a new timer goes behind every timer
    that is due no later than it. *)
Fixpoint enqueue (t : Timer) (q : list Timer) : list Timer :=
  match q with
  | [] => [t]
  | u :: q' => if fst u <=? fst t then u :: enqueue t q' else t :: q
  end.

Definition setTimeout (cb : Callback) (delay : N) : Js unit :=
  modify (λ st, set_timers (enqueue (clock st + delay, cb) (timers st)) st).

(** [document.createElement] followed by [document.body.appendChild]; the
    result is the identity of the new node. *)
Definition body_appendChild (k : NodeKind) (text anim : jsstring) : Js nat :=
  λ st,
    let id := next_node st in
    (Normal id,
     set_next_node (S id)
       (with_document
          (λ d, set_body_children (body_children d ++ [MkNode id k text anim]) d)
          st)).

(** [node.remove()] for a node of [document.body]. *)
Definition body_removeChild (id : nat) : Js unit :=
  modify (with_document (λ d,
    set_body_children
      (filter (λ n, node_id n ≠ id) (body_children d)) d)).

Definition localStorage_getItem (k : string) : Js (option jsstring) :=
  λ st, (Normal (items (localStorage st) !! k), st).

Definition localStorage_setItem (k : string) (v : jsstring) : Js unit :=
  λ st,
    if writable (localStorage st)
    then (Normal tt,
          set_localStorage
            (MkStorage (<[k := v]> (items (localStorage st))) true) st)
    else (Throw QuotaExceededError, st).

(** ** The script *)

Section Script.

Variable els : elements.t.

(** [announceToScreenReader(message)] *)
Definition announceToScreenReader (message : jsstring) : Js unit :=
  id ← body_appendChild SrAnnouncement message [];
  setTimeout (RemoveNode id) 1000.

(** [updateDisplayedName(name)] *)
Definition updateDisplayedName (name : jsstring) : Js unit :=
  if negb (elements.recipientName els) then skip else
  modify (with_document (set_recipientName_loading true)) ;;
  setTimeout (LabelUpdate name) 150.

(** [loadSavedName()] *)
Definition loadSavedName : Js unit :=
  savedName ← localStorage_getItem storageKey;
  match savedName with
  | Some v =>
      if truthy v && truthy (trim v) then
        modify (set_currentName (trim v)) ;;
        reading (λ st, updateDisplayedName (currentName st))
      else skip
  | None => skip
  end.

(** [elements.nameInput.value = v], for a value the script supplies: the
    control stores [v] as its [value] setter sanitizes it. *)
Definition nameInput_value_setter (v : jsstring) : jsstring :=
  if elements.nameInput_textarea els
  then normalize_newlines v
  else strip_newlines v.

(** [openModal()] *)
Definition openModal : Js unit :=
  if negb (elements.nameModal els) || negb (elements.nameInput els)
  then skip else
  modify (λ st, with_document
                  (set_nameInput_value
                     (nameInput_value_setter (currentName st))) st) ;;
  modify (with_document (set_nameModal_active true)) ;;
  modify (with_document (set_activeElement FocusNameInput)) ;;
  modify (with_document (set_nameInput_selected true)) ;;
  modify (with_document (set_body_overflow (js "hidden"))) ;;
  announceToScreenReader (js "Name change dialog opened").

(** [closeModal()] *)
Definition closeModal : Js unit :=
  if negb (elements.nameModal els) then skip else
  modify (with_document (set_nameModal_active false)) ;;
  modify (with_document (set_body_overflow [])) ;;
  (if elements.changeNameBtn els
   then modify (with_document (set_activeElement FocusChangeNameBtn))
   else skip) ;;
  announceToScreenReader (js "Name change dialog closed").

(** [showInputError(message)] *)
Definition showInputError (message : jsstring) : Js unit :=
  if negb (elements.nameInput els) then skip else
  modify (with_document (set_nameInput_borderColor (js "var(--error-500)"))) ;;
  modify (with_document
            (set_nameInput_boxShadow (js "0 0 0 3px rgba(239, 68, 68, 0.1)"))) ;;
  (* existingError.remove(): the first .error-message under the parent *)
  modify (with_document (λ d,
    set_nameInput_parentNode (tail <$> nameInput_parentNode d) d)) ;;
  (* parentNode?.appendChild(errorDiv) *)
  modify (with_document (λ d,
    set_nameInput_parentNode
      ((λ errs, errs ++ [message]) <$> nameInput_parentNode d) d)) ;;
  announceToScreenReader (js "Error: " ++ message).

(** [clearInputError()] *)
Definition clearInputError : Js unit :=
  if negb (elements.nameInput els) then skip else
  modify (with_document (set_nameInput_borderColor [])) ;;
  modify (with_document (set_nameInput_boxShadow [])) ;;
  modify (with_document (λ d,
    set_nameInput_parentNode (tail <$> nameInput_parentNode d) d)).

(** [validateInput()] *)
Definition validateInput : Js unit :=
  if negb (elements.nameInput els) then skip else
  reading (λ st,
    let value := nameInput_value (document st) in
    if negb (elements.saveNameBtn els) then skip else
    if truthy (trim value) && (length value <=? 20)%nat then
      modify (with_document (set_saveNameBtn_disabled false)) ;;
      clearInputError
    else
      modify (with_document (set_saveNameBtn_disabled true)) ;;
      if (20 <? length value)%nat
      then showInputError (js "Name must be 20 characters or less")
      else skip).

(** [showSuccessMessage(message)] *)
Definition showSuccessMessage (message : jsstring) : Js unit :=
  if negb (elements.messageSection els && elements.messageCard els)
  then skip else
  modify (with_document (set_messageCard_success true)) ;;
  id ← body_appendChild SuccessNotification message
         (js "slideInRight 0.3s ease-out");
  setTimeout (SuccessFade id) 3000.

(** [saveName()] *)
Definition saveName : Js unit :=
  if negb (elements.nameInput els) then skip else
  reading (λ st,
    let newName := trim (nameInput_value (document st)) in
    if negb (truthy newName) then
      showInputError (js "Please enter a valid name")
    else if (20 <? length newName)%nat then
      showInputError (js "Name must be 20 characters or less")
    else
      modify (set_currentName newName) ;;
      updateDisplayedName newName ;;
      localStorage_setItem storageKey newName ;;
      closeModal ;;
      showSuccessMessage
        (js "Name updated to " ++ [34] ++ newName ++ [34] ++ js "!") ;;
      announceToScreenReader
        (js "Birthday person's name changed to " ++ newName)).

(** [replayAnimation()] *)
Definition replayAnimation : Js unit :=
  reading (λ st,
    if isAnimating st || negb (elements.cake els) then skip else
    modify (set_isAnimating true) ;;
    (* elements.playAnimationBtn.disabled = true: no guard in the source *)
    (if elements.playAnimationBtn els
     then modify (with_document (set_playAnimationBtn_disabled true))
     else throw TypeError) ;;
    modify (with_document (set_playAnimationBtn_loading true)) ;;
    modify (with_document (λ d, set_cake_animate (S <$> cake_animate d) d)) ;;
    setTimeout AnimationDone 4000 ;;
    announceToScreenReader (js "Cake animation started")).

(** [handleKeyboardNavigation(e)] *)
Definition handleKeyboardNavigation (key : jsstring) (ctrlKey metaKey : bool)
  : Js unit :=
  when_st (λ st, str_eqb key (js "Escape")
                 && (elements.nameModal els && nameModal_active (document st)))
    closeModal ;;
  if ctrlKey || metaKey then
    if str_eqb key (js "e") then openModal
    else if str_eqb key (js "r") then replayAnimation
    else skip
  else skip.

(** [init()].  [setupEventListeners] and [setupAccessibility] register
    listeners and set static ARIA attributes; the listeners are [listener]
    below. *)
Definition init : Js unit :=
  loadSavedName ;;
  (if elements.messageSection els then skip else throw TypeError) ;;
  (if elements.messageCard els
   then modify (with_document (set_messageCard_celebration true))
   else skip).

(** The [window] error listener: one banner, removed after 5000 ms. *)
Definition windowErrorListener : Js unit :=
  id ← body_appendChild ErrorNotification
         (js "Something went wrong. Please refresh the page.")
         (js "slideInRight 0.3s ease-out");
  setTimeout (RemoveNode id) 5000.

(** The bodies of the [setTimeout] closures. *)
Definition run_callback (cb : Callback) : Js unit :=
  match cb with
  | LabelUpdate name =>
      if negb (elements.recipientName els) then throw TypeError else
      modify (with_document (set_recipientName_textContent name)) ;;
      modify (with_document (set_recipientName_loading false)) ;;
      modify (with_document (set_recipientName_animation (js "none"))) ;;
      modify (with_document
                (set_recipientName_animation (js "bounce 0.6s ease-out")))
  | AnimationDone =>
      modify (set_isAnimating false) ;;
      (if elements.playAnimationBtn els
       then modify (with_document (set_playAnimationBtn_disabled false))
       else throw TypeError) ;;
      modify (with_document (set_playAnimationBtn_loading false)) ;;
      announceToScreenReader (js "Cake animation completed")
  | SuccessFade id =>
      modify (with_document (λ d,
        set_body_children
          ((λ n, if bool_decide (node_id n = id)
                 then MkNode (node_id n) (node_kind n) (node_text n)
                        (js "slideOutRight 0.3s ease-out")
                 else n) <$> body_children d) d)) ;;
      modify (with_document (set_messageCard_success false)) ;;
      setTimeout (RemoveNode id) 300
  | RemoveNode id => body_removeChild id
  end.

(** ** Events *)

(** What the user can do to the page.  [input v] is an edit that leaves [v]
    in the draft field; [click_nameModal b] is a click inside the dialog,
    [b] telling whether it hit the backdrop itself
    ([e.target === elements.nameModal]). *)
Inductive Event : Type :=
| click_changeNameBtn
| click_closeModal
| click_cancelBtn
| click_saveNameBtn
| click_playAnimationBtn
| click_nameModal (on_backdrop : bool)
| keydown (key : jsstring) (ctrlKey metaKey : bool)
| input (value : jsstring)
| keypress (key : jsstring)
| focus_moved (target : Focus).

(** The listeners registered by [setupEventListeners].  A listener exists
    only on an element that was found, and a disabled button receives no
    click.  Two more listeners of the source hear the same events and are
    not part of [listener]: the dialog's own [keydown] listener
    ([setupFocusTrap], which moves focus between the dialog's controls on
    Tab) and the replay button's second [click] listener
    ([enhancedCakeAnimation], which plays three tones). *)
Definition listener (ev : Event) : Js unit :=
  match ev with
  | click_changeNameBtn =>
      if elements.changeNameBtn els then openModal else skip
  | click_closeModal =>
      if elements.closeModal els then closeModal else skip
  | click_cancelBtn =>
      if elements.cancelBtn els then closeModal else skip
  | click_saveNameBtn =>
      when_st (λ st, elements.saveNameBtn els
                     && negb (saveNameBtn_disabled (document st)))
        saveName
  | click_playAnimationBtn =>
      when_st (λ st, elements.playAnimationBtn els
                     && negb (playAnimationBtn_disabled (document st)))
        replayAnimation
  | click_nameModal on_backdrop =>
      if elements.nameModal els && on_backdrop then closeModal else skip
  | keydown key ctrlKey metaKey =>
      handleKeyboardNavigation key ctrlKey metaKey
  | input value =>
      if elements.nameInput els then
        modify (with_document (set_nameInput_value value)) ;;
        modify (with_document (set_nameInput_selected false)) ;;
        validateInput
      else skip
  | keypress key =>
      if elements.nameInput els && str_eqb key (js "Enter")
      then saveName else skip
  | focus_moved target =>
      modify (with_document (set_activeElement target))
  end.

(** Running a handler from the event loop: a fault that escapes it is
    reported to the [window] error listener and the loop goes on. *)
Definition dispatch (h : Js unit) (st : State) : State :=
  match h st with
  | (Normal _, st') => st'
  | (Throw _, st') => snd (windowErrorListener st')
  end.

(** The timers due at time [t], in firing order, and the ones that stay. *)
Fixpoint split_due (t : N) (q : list Timer) : list Timer * list Timer :=
  match q with
  | [] => ([], [])
  | u :: q' =>
      if fst u <=? t
      then let '(ready, rest) := split_due t q' in (u :: ready, rest)
      else ([], q)
  end.

Definition fire (st : State) (t : Timer) : State :=
  dispatch (run_callback (snd t)) st.

(** One turn of the event loop after [ms] milliseconds: the timers that
    have come due run in order, each to completion. *)
Definition tick (ms : N) (st : State) : State :=
  let st1 := set_clock (clock st + ms) st in
  let '(ready, rest) := split_due (clock st1) (timers st1) in
  fold_left fire ready (set_timers rest st1).

Inductive Action : Type :=
| Do (ev : Event)
| Wait (ms : N).

Definition step (st : State) (a : Action) : State :=
  match a with
  | Do ev => dispatch (listener ev) st
  | Wait ms => tick ms st
  end.

Definition run (acts : list Action) (st : State) : State :=
  fold_left step acts st.

(** The state when the script starts on a page [d] with storage [ls], and
    the state once [init] has run. *)
Definition fresh (d : Dom) (ls : Storage) : State :=
  MkState (js "Lovie") false d ls [] 0 0.

Definition boot (d : Dom) (ls : Storage) : State :=
  dispatch init (fresh d ls).

Inductive reachable : State -> Prop :=
| reach_boot (d : Dom) (ls : Storage) : reachable (boot d ls)
| reach_step (st : State) (a : Action) :
    reachable st -> reachable (step st a).

End Script.

(** ** Sample pages and drafts *)

(** A page on which every element of the [elements] object was found. *)
Definition page : elements.t :=
  elements.mk true true true true true true true true true true true false.

(** The page as served: the label shows the default name, the dialog is
    closed, the draft field is empty, the cake has two [<animate>] elements
    and the script has appended nothing to [document.body] yet. *)
Definition markup : Dom :=
  MkDom (js "Lovie") false [] false [] false [] [] (Some []) false false false
    [0; 0]%nat false false [] [] FocusElsewhere.

Definition empty_storage : Storage := MkStorage ∅ true.

(** A store that refuses writes. *)
Definition full_storage : Storage := MkStorage ∅ false.

Definition storage_with (v : jsstring) : Storage :=
  MkStorage {[ storageKey := v ]} true.

(** The state after the user opened the dialog and typed [draft]. *)
Definition editing (els : elements.t) (ls : Storage) (draft : jsstring) : State :=
  run els [Do click_changeNameBtn; Do (input draft)] (boot els markup ls).

(** One letter followed by twenty spaces: 21 code units, 1 after trimming. *)
Definition padded_draft : jsstring := js "a                    ".

(** ** Assertions about handlers *)

(** [hoare P m Q E]: started in a state satisfying [P], [m] either completes
    normally with a value and state satisfying [Q], or throws leaving a state
    satisfying [E]. *)
Definition hoare {A : Type} (P : State → Prop) (m : Js A)
    (Q : A → State → Prop) (E : State → Prop) : Prop :=
  ∀ st, P st →
    match m st with
    | (Normal a, st') => Q a st'
    | (Throw _, st') => E st'
    end.

(** A document update that leaves the replay button's [disabled] alone. *)
Definition doc_safe (f : Dom → Dom) : Prop :=
  ∀ d, playAnimationBtn_disabled (f d) = playAnimationBtn_disabled d.

(** The two callbacks that are scheduled for a node just created. *)
Definition node_callback (cb : nat → Callback) : Prop :=
  cb = RemoveNode ∨ cb = SuccessFade.

(** An assertion is framed when the script's housekeeping cannot break it:
    document updates away from the replay button, a label update scheduled
    150 ms ahead, and a node appended together with the timer that will
    fade or remove it. *)
Class Framed (I : State → Prop) : Prop := {
  framed_document f st : doc_safe f → I st → I (with_document f st);
  framed_label name st :
    I st → I (snd (setTimeout (LabelUpdate name) 150 st));
  framed_node k text anim cb ms st :
    node_callback cb → I st →
    I (snd ((body_appendChild k text anim ≫= λ id, setTimeout (cb id) ms) st))
}.

(** An assertion that does not look at [state.currentName] or the store. *)
Class NameBlind (I : State → Prop) : Prop := {
  blind_currentName v st : I st → I (set_currentName v st);
  blind_localStorage v st : I st → I (set_localStorage v st)
}.

(** ** The timer queue *)

Definition due_le (a b : Timer) : Prop := fst a ≤ fst b.

Definition is_label (t : Timer) : bool :=
  match snd t with LabelUpdate _ => true | _ => false end.

Definition is_done (t : Timer) : bool :=
  match snd t with AnimationDone => true | _ => false end.

Fixpoint count_done (q : list Timer) : nat :=
  match q with
  | [] => 0
  | t :: q' => (if is_done t then 1 else 0) + count_done q'
  end.

(** What holds of every timer the script has scheduled, at time [c] with
    [n] nodes created so far: a label update is at most 150 ms away and a
    node callback names a node that exists. *)
Definition timer_ok (c : N) (n : nat) (t : Timer) : Prop :=
  match snd t with
  | LabelUpdate _ => fst t ≤ c + 150
  | AnimationDone => True
  | SuccessFade id | RemoveNode id => (id < n)%nat
  end.

(** Well-formedness of the pending timers.  [l] holds the timers that the
    current turn of the event loop has taken off the queue and not run yet
    (empty between turns). *)
Record queue_wf (l : list Timer) (st : State) : Prop := {
  wf_sorted : StronglySorted due_le (timers st);
  wf_timers : Forall (timer_ok (clock st) (next_node st)) (l ++ timers st);
  wf_done :
    (count_done (l ++ timers st) ≤ if isAnimating st then 1 else 0)%nat
}.


(** ** Validation as specified *)

Inductive Verdict : Type := Valid | TooLong | Empty.

(** The classification of a draft in the specification's words
    ([validateDraft]): [Valid] iff the trimmed text is non-empty and at most
    20 long, [TooLong] if it is longer, [Empty] if it is blank after
    trimming.  It is stated here to be compared with what [validateInput]
    and [saveName] compute. *)
Definition validateDraft (text : jsstring) : Verdict :=
  if negb (truthy (trim text)) then Empty
  else if (20 <? length (trim text))%nat then TooLong
  else Valid.

(** ** The name *)

Definition name_ok (s : jsstring) : Prop := s ≠ [] ∧ (length s ≤ 20)%nat.

Definition persisted (st : State) : option jsstring :=
  items (localStorage st) !! storageKey.

(** The persisted value, if any, is blank or at most 20 code units once
    trimmed. *)
Definition stored_ok (ls : Storage) : Prop :=
  ∀ v, items ls !! storageKey = Some v → (length (trim v) ≤ 20)%nat.

(** [state.currentName] is what a fresh start would load from the store. *)
Definition mirrors_store (st : State) : Prop :=
  currentName st =
    match persisted st with
    | Some v => if truthy (trim v) then trim v else js "Lovie"
    | None => js "Lovie"
    end.

(** The invariant of the data model as the specification words it:
    non-empty, at most 20 code units, equal to the persisted value. *)
Definition name_mirrors_persisted (st : State) : Prop :=
  name_ok (currentName st) ∧ persisted st = Some (currentName st).

(** What ties [state.currentName] to the store. *)
Record name_inv (st : State) : Prop := {
  inv_name : name_ok (currentName st);
  inv_stored : stored_ok (localStorage st);
  inv_mirror : writable (localStorage st) = true → mirrors_store st
}.

(** ** The replay cooldown *)

(** A replay triggered at time [T - 4000] is still cooling down. *)
Record cooling (T : N) (st : State) : Prop := {
  cooling_flag : isAnimating st = true;
  cooling_button : playAnimationBtn_disabled (document st) = true;
  cooling_timer : (T, AnimationDone) ∈ timers st
}.

(** The announcement made when the cooldown ends is in the document. *)
Definition announced (text : jsstring) (st : State) : Prop :=
  ∃ n, n ∈ body_children (document st) ∧
       node_kind n = SrAnnouncement ∧ node_text n = text.

(** What the end of the cooldown looks like, with the identity of the
    announcement node. *)
Record cooled (id : nat) (st : State) : Prop := {
  cooled_flag : isAnimating st = false;
  cooled_button : playAnimationBtn_disabled (document st) = false;
  cooled_announced :
    ∃ n, n ∈ body_children (document st) ∧ node_id n = id ∧
         node_kind n = SrAnnouncement ∧
         node_text n = js "Cake animation completed"
}.

(** The timer [t] does not remove or restyle node [id]. *)
Definition spares (id : nat) (t : Timer) : Prop :=
  match snd t with
  | SuccessFade i | RemoveNode i => i ≠ id
  | _ => True
  end.

(** ** Sessions *)

(** [state.currentName] and the store are a given pair. *)
Definition name_is (n : jsstring) (ls : Storage) (st : State) : Prop :=
  currentName st = n ∧ localStorage st = ls.

(** The two user actions that reach [saveName]: a click on the (enabled)
    save button and Enter in the draft field. *)
Definition saves (a : Action) : bool :=
  match a with
  | Do click_saveNameBtn => true
  | Do (keypress key) => str_eqb key (js "Enter")
  | _ => false
  end.

(** ** Invariants of the page *)

(** Background scroll is suspended exactly while the dialog is shown. *)
Definition scroll_locked (st : State) : Prop :=
  body_overflow (document st) =
    if nameModal_active (document st) then js "hidden" else [].

(** At most one inline error message sits under the draft field. *)
Definition one_error (st : State) : Prop :=
  match nameInput_parentNode (document st) with
  | Some errs => (length errs ≤ 1)%nat
  | None => True
  end.

(** The replay button shows the flag: disabled and loading exactly while
    [state.isAnimating] is set. *)
Definition button_mirrors_flag (st : State) : Prop :=
  playAnimationBtn_disabled (document st) = isAnimating st ∧
  playAnimationBtn_loading (document st) = isAnimating st.

(** The number of pending cooldown timers is a function of the flag.  [l]
    holds the timers taken off the queue by the current turn of the event
    loop and not run yet. *)
Definition flag_count (f : bool → nat) (l : list Timer) (st : State) : Prop :=
  count_done (l ++ timers st) = f (isAnimating st).

(** The flag is set and no timer is left to clear it. *)
Definition flag_stuck (l : list Timer) (st : State) : Prop :=
  isAnimating st = true ∧ flag_count (λ _, 0%nat) l st.

(** What a session may have done to a store that started as [ls0]: the
    host's verdict on writes is the same, every other key is untouched, and
    the value under the script's key is the one found at startup or a name
    that passed [saveName]'s checks. *)
Definition store_kept (ls0 : Storage) (st : State) : Prop :=
  writable (localStorage st) = writable ls0 ∧
  (∀ k, k ≠ storageKey → items (localStorage st) !! k = items ls0 !! k) ∧
  (persisted st = items ls0 !! storageKey ∨
   ∃ v, persisted st = Some v ∧ name_ok v ∧ trim v = v).

(** ** Nodes the script adds to the document *)

(** Node [id] is in [document.body], of kind [k] and with text [text]. *)
Definition node_present (id : nat) (k : NodeKind) (text : jsstring)
    (st : State) : Prop :=
  ∃ n, n ∈ body_children (document st) ∧
       node_id n = id ∧ node_kind n = k ∧ node_text n = text.

(** No node of [document.body] has identity [id]. *)
Definition node_absent (id : nat) (st : State) : Prop :=
  ∀ n, n ∈ body_children (document st) → node_id n ≠ id.

(** Node [id] is gone for good: it is not in the document and its identity
    has been handed out. *)
Definition node_gone (id : nat) (st : State) : Prop :=
  node_absent id st ∧ (id < next_node st)%nat.

(** The success style is off and the removal of banner [id] is scheduled
    for [due]. *)
Definition fading (id : nat) (due : N) (st : State) : Prop :=
  messageCard_success (document st) = false ∧
  (due, RemoveNode id) ∈ timers st.

(** The timer [t] does not take node [id] out of the document. *)
Definition leaves_node (id : nat) (t : Timer) : Prop :=
  match snd t with
  | RemoveNode i => i ≠ id
  | _ => True
  end.

(** ** [debounce]

    [debounce(func, wait)] is the one place where the script cancels a
    timer, so it has a timer table of its own: every pending timer has an
    identity, and [clearTimeout] takes it off the table.  [func] is
    represented by the log of the arguments it was called with. *)

Module Debounce.
Section Debounce.
Context {A : Type}.
Variable wait : N.

(** A pending timer: when it is due, the identity [setTimeout] returned and
    the arguments its [later] closure captured. *)
Record Pending := MkPending {
  due : N;
  ident : nat;
  args : A
}.

Record Env := MkEnv {
  pending : list Pending;   (* by due time, ties in creation order *)
  timeout : option nat;     (* [let timeout;], undefined at first *)
  next_id : nat;
  now : N;
  calls : list A            (* the calls of [func], oldest first *)
}.

Definition start : Env := MkEnv [] None 1 0 [].

(** [clearTimeout(undefined)] and [clearTimeout] of a timer that has run or
    was cleared do nothing. *)
Definition clearTimeout (h : option nat) (e : Env) : Env :=
  match h with
  | None => e
  | Some id =>
      MkEnv (filter (λ p, ident p ≠ id) (pending e)) (timeout e) (next_id e)
        (now e) (calls e)
  end.

Fixpoint schedule (p : Pending) (l : list Pending) : list Pending :=
  match l with
  | [] => [p]
  | q :: l' => if due p <? due q then p :: q :: l' else q :: schedule p l'
  end.

(** [setTimeout(later, wait)] for the closure [later] of a call with
    arguments [a]. *)
Definition setTimeout (a : A) (e : Env) : nat * Env :=
  (next_id e,
   MkEnv (schedule (MkPending (now e + wait) (next_id e) a) (pending e))
     (timeout e) (S (next_id e)) (now e) (calls e)).

(** The function [debounce] returns. *)
Definition executedFunction (a : A) (e : Env) : Env :=
  let e1 := clearTimeout (timeout e) e in
  let '(id, e2) := setTimeout a e1 in
  MkEnv (pending e2) (Some id) (next_id e2) (now e2) (calls e2).

Definition later (a : A) (e : Env) : Env :=
  let e1 := clearTimeout (timeout e) e in
  MkEnv (pending e1) (timeout e1) (next_id e1) (now e1) (calls e1 ++ [a]).

(** The timers that are due run earliest first; a timer is off the table
    when its body runs.  [later] sets no timer, so one round per pending
    timer is enough. *)
Fixpoint run_due (fuel : nat) (e : Env) : Env :=
  match fuel with
  | O => e
  | S fuel' =>
      match pending e with
      | p :: rest =>
          if due p <=? now e
          then run_due fuel'
                 (later (args p)
                    (MkEnv rest (timeout e) (next_id e) (now e) (calls e)))
          else e
      | [] => e
      end
  end.

(** [ms] milliseconds pass, then the event loop takes a turn. *)
Definition advance (ms : N) (e : Env) : Env :=
  run_due (length (pending e))
    (MkEnv (pending e) (timeout e) (next_id e) (now e + ms) (calls e)).

Inductive Input :=
  | Call (a : A)
  | Idle (ms : N).

Definition step (e : Env) (i : Input) : Env :=
  match i with
  | Call a => executedFunction a e
  | Idle ms => advance ms e
  end.

Definition run (l : list Input) (e : Env) : Env := fold_left step l e.

(** A burst: a call, then further calls, each some time after the one
    before. *)
Definition burst (a : A) (l : list (N * A)) : list Input :=
  Call a :: flat_map (λ ga, [Idle (fst ga); Call (snd ga)]) l.

(** At most one timer is pending, and [timeout] names it. *)
Definition single (e : Env) : Prop :=
  match pending e with
  | [] => True
  | [p] => timeout e = Some (ident p)
  | _ => False
  end.

(** The timer of the latest call, with arguments [a], is the one pending
    timer. *)
Definition armed (a : A) (d : N) (e : Env) : Prop :=
  ∃ i, pending e = [MkPending d i a] ∧ timeout e = Some i.

End Debounce.
End Debounce.

(** * Properties *)

(** ** Strings *)

Lemma trimStart_length s : (length (trimStart s) ≤ length s)%nat.
Proof.
  induction s as [|c r IH]; simpl; [lia|].
  destruct (isWhiteSpace c); simpl; lia.
Qed.

Lemma trimStart_fixed_head c r :
  trimStart (c :: r) = c :: r → isWhiteSpace c = false.
Proof.
  simpl. destruct (isWhiteSpace c); [|done].
  intros H. pose proof (trimStart_length r) as L.
  rewrite H in L. simpl in L. lia.
Qed.

Lemma trimStart_idemp s : trimStart (trimStart s) = trimStart s.
Proof.
  induction s as [|c r IH]; [done|]. simpl.
  destruct (isWhiteSpace c) eqn:E; [done|]. simpl. by rewrite E.
Qed.

Lemma trimStart_prefix p q :
  p ≠ [] → trimStart (p ++ q) = p ++ q → trimStart p = p.
Proof.
  destruct p as [|c p]; [done|]. intros _ H.
  apply trimStart_fixed_head in H. simpl. by rewrite H.
Qed.

Lemma trimStart_split s : ∃ w, s = w ++ trimStart s.
Proof.
  induction s as [|c r [w IH]]; [by exists []|]. simpl.
  destruct (isWhiteSpace c).
  - exists (c :: w). simpl. by rewrite <- IH.
  - by exists [].
Qed.

(** Trimming a trimmed string changes nothing. *)
Lemma trim_idemp s : trim (trim s) = trim s.
Proof.
  unfold trim, trimEnd.
  set (a := trimStart s). set (b := trimStart (rev a)).
  assert (Hb : trimStart (rev b) = rev b).
  { destruct (trimStart_split (rev a)) as [w Hw]. fold b in Hw.
    destruct (decide (b = [])) as [->|Hne]; [done|].
    apply (trimStart_prefix (rev b) (rev w)).
    - intros Hr. apply Hne. apply (f_equal (@rev N)) in Hr.
      by rewrite rev_involutive in Hr.
    - rewrite <- rev_app_distr, <- Hw, rev_involutive. apply trimStart_idemp. }
  rewrite Hb, rev_involutive. unfold b. by rewrite trimStart_idemp.
Qed.

Lemma trim_length s : (length (trim s) ≤ length s)%nat.
Proof.
  unfold trim, trimEnd. rewrite length_rev.
  etrans; [apply trimStart_length|]. rewrite length_rev. apply trimStart_length.
Qed.

Lemma truthy_true s : truthy s = true ↔ s ≠ [].
Proof. by destruct s. Qed.

Lemma truthy_false s : truthy s = false ↔ s = [].
Proof. by destruct s. Qed.

Lemma str_eqb_refl s : str_eqb s s = true.
Proof. by apply bool_decide_eq_true_2. Qed.

(** ** Symbolic evaluation *)

(** Runs the monad and the record updates, leaving the host functions on
    strings, numbers and queues alone. *)
Ltac js_simpl :=
  cbv beta iota zeta delta
    [mbind mret Js_bind Js_ret modify reading skip throw when_st
     setTimeout body_appendChild body_removeChild
     localStorage_getItem localStorage_setItem
     fst snd negb andb orb
     currentName isAnimating document localStorage timers clock next_node
     items writable persisted
     set_currentName set_isAnimating set_document set_localStorage set_timers
     set_clock set_next_node with_document
     recipientName_textContent recipientName_loading recipientName_animation
     nameModal_active nameInput_value nameInput_selected nameInput_borderColor
     nameInput_boxShadow nameInput_parentNode saveNameBtn_disabled
     playAnimationBtn_disabled playAnimationBtn_loading cake_animate
     messageCard_celebration messageCard_success body_overflow body_children
     activeElement
     set_recipientName_textContent set_recipientName_loading
     set_recipientName_animation set_nameModal_active set_nameInput_value
     set_nameInput_selected set_nameInput_borderColor set_nameInput_boxShadow
     set_nameInput_parentNode set_saveNameBtn_disabled
     set_playAnimationBtn_disabled set_playAnimationBtn_loading
     set_cake_animate set_messageCard_celebration set_messageCard_success
     set_body_overflow set_body_children set_activeElement] in *.

(** Splits a state into its fields. *)
Ltac open_state st :=
  let d := fresh "d" in
  let ls := fresh "ls" in
  destruct st as [st_name st_anim d ls st_timers st_clock st_next];
  destruct d as [st_label st_label_loading st_label_animation st_modal
                 st_draft st_selected st_border st_shadow st_parent
                 st_save_disabled st_play_disabled st_play_loading st_cake
                 st_celebration st_success st_overflow st_body st_focus];
  destruct ls as [st_items st_writable];
  js_simpl.

(** ** The timer queue *)

Lemma elem_of_enqueue (x t : Timer) q : x ∈ enqueue t q ↔ x = t ∨ x ∈ q.
Proof.
  induction q as [|u q IH]; simpl.
  - rewrite list_elem_of_singleton, elem_of_nil. tauto.
  - destruct (fst u <=? fst t); rewrite !elem_of_cons; [rewrite IH|]; tauto.
Qed.

(** ** Saving *)

(** The outcome of [saveName] on a draft that passes its two checks, when the
    store accepts the write. *)
Lemma saveName_accepts els st n :
  elements.nameInput els = true →
  trim (nameInput_value (document st)) = n →
  n ≠ [] → (length n ≤ 20)%nat →
  writable (localStorage st) = true →
  ∃ st',
    saveName els st = (Normal tt, st') ∧
    currentName st' = n ∧
    items (localStorage st') = <[storageKey := n]> (items (localStorage st)) ∧
    writable (localStorage st') = true ∧
    isAnimating st' = isAnimating st ∧
    clock st' = clock st ∧
    nameModal_active (document st') =
      (if elements.nameModal els then false
       else nameModal_active (document st)) ∧
    recipientName_textContent (document st') =
      recipientName_textContent (document st) ∧
    (elements.recipientName els = true →
     ∃ later,
       timers st' =
         foldr enqueue
           (enqueue (clock st + 150, LabelUpdate n) (timers st)) later ∧
       Forall (λ t, is_label t = false ∧ clock st + 150 ≤ fst t) later).
Proof.
  intros Hi Hn Hne Hlen Hw.
  apply truthy_true in Hne. apply Nat.ltb_ge in Hlen.
  open_state st. subst. unfold saveName. rewrite Hi. js_simpl.
  rewrite Hne, Hlen. js_simpl.
  unfold updateDisplayedName, closeModal, showSuccessMessage,
    announceToScreenReader.
  destruct (elements.recipientName els), (elements.nameModal els),
    (elements.changeNameBtn els), (elements.messageSection els),
    (elements.messageCard els); js_simpl;
    (eexists; split; [reflexivity|]); js_simpl;
    repeat (split; [reflexivity|]); intros Hr; try discriminate.
  all: first
    [ by (eexists [_; _; _]; split; [reflexivity|];
          repeat constructor; simpl; lia)
    | by (eexists [_; _]; split; [reflexivity|];
          repeat constructor; simpl; lia)
    | by (eexists [_]; split; [reflexivity|];
          repeat constructor; simpl; lia) ].
Qed.

(** The outcome of [saveName] on a draft that passes its two checks, when the
    store refuses the write: the name and the label update are already in
    place, and nothing after the write has run. *)
Lemma saveName_store_throws els st n :
  elements.nameInput els = true →
  trim (nameInput_value (document st)) = n →
  n ≠ [] → (length n ≤ 20)%nat →
  writable (localStorage st) = false →
  ∃ st',
    saveName els st = (Throw QuotaExceededError, st') ∧
    currentName st' = n ∧
    localStorage st' = localStorage st ∧
    nameModal_active (document st') = nameModal_active (document st) ∧
    body_children (document st') = body_children (document st) ∧
    timers st' =
      (if elements.recipientName els
       then enqueue (clock st + 150, LabelUpdate n) (timers st)
       else timers st).
Proof.
  intros Hi Hn Hne Hlen Hw.
  apply truthy_true in Hne. apply Nat.ltb_ge in Hlen.
  open_state st. subst. unfold saveName. rewrite Hi. js_simpl.
  rewrite Hne, Hlen. js_simpl. unfold updateDisplayedName.
  destruct (elements.recipientName els); js_simpl;
    (eexists; split; [reflexivity|]); js_simpl; by repeat split.
Qed.

(** On a draft that fails one of its checks [saveName] is [showInputError]
    with the matching message. *)
Lemma saveName_refuses els st :
  elements.nameInput els = true →
  trim (nameInput_value (document st)) = [] ∨
  (20 < length (trim (nameInput_value (document st))))%nat →
  saveName els st =
    showInputError els
      (if truthy (trim (nameInput_value (document st)))
       then js "Name must be 20 characters or less"
       else js "Please enter a valid name") st.
Proof.
  intros Hi Hd. unfold saveName, reading. rewrite Hi.
  cbv beta iota delta [negb].
  destruct (trim (nameInput_value (document st))) as [|c r] eqn:E;
    [reflexivity|].
  destruct Hd as [Hd|Hd]; [discriminate|].
  apply Nat.ltb_lt in Hd. cbv beta iota delta [truthy]. by rewrite Hd.
Qed.

(** What [showInputError] changes, and what it leaves alone. *)
Lemma showInputError_effect els st message :
  elements.nameInput els = true →
  ∃ st',
    showInputError els message st = (Normal tt, st') ∧
    nameInput_borderColor (document st') = js "var(--error-500)" ∧
    nameInput_parentNode (document st') =
      (λ errs, tail errs ++ [message]) <$> nameInput_parentNode (document st) ∧
    announced (js "Error: " ++ message) st' ∧
    nameModal_active (document st') = nameModal_active (document st) ∧
    nameInput_value (document st') = nameInput_value (document st) ∧
    recipientName_textContent (document st') =
      recipientName_textContent (document st) ∧
    currentName st' = currentName st ∧
    localStorage st' = localStorage st.
Proof.
  intros Hi. open_state st.
  unfold showInputError, announceToScreenReader. rewrite Hi. js_simpl.
  eexists. split; [reflexivity|]. unfold announced. js_simpl.
  split; [done|]. split; [by destruct st_parent|]. split; [|done].
  eexists.
  split; [apply elem_of_app; right; by apply list_elem_of_singleton|done].
Qed.

(** C3.  Saving a draft that is blank after trimming, or longer than 20 code
    units after trimming, shows the matching inline error (red border, the
    message under the field, the same message announced) and aborts: the
    handler returns normally, the dialog's visibility, the draft, the label,
    [state.currentName] and the store are as before. *)
Theorem saveName_invalid_draft_aborts els st :
  elements.nameInput els = true →
  trim (nameInput_value (document st)) = [] ∨
  (20 < length (trim (nameInput_value (document st))))%nat →
  ∃ st' message,
    saveName els st = (Normal tt, st') ∧
    message =
      (if truthy (trim (nameInput_value (document st)))
       then js "Name must be 20 characters or less"
       else js "Please enter a valid name") ∧
    nameInput_borderColor (document st') = js "var(--error-500)" ∧
    nameInput_parentNode (document st') =
      (λ errs, tail errs ++ [message]) <$> nameInput_parentNode (document st) ∧
    announced (js "Error: " ++ message) st' ∧
    nameModal_active (document st') = nameModal_active (document st) ∧
    nameInput_value (document st') = nameInput_value (document st) ∧
    recipientName_textContent (document st') =
      recipientName_textContent (document st) ∧
    currentName st' = currentName st ∧
    localStorage st' = localStorage st.
Proof.
  intros Hi Hd. rewrite (saveName_refuses els st Hi Hd).
  set (message := if truthy _ then _ else _).
  destruct (showInputError_effect els st message Hi) as (st' & Hrun & Heff).
  exists st', message. split; [exact Hrun|]. split; [reflexivity|exact Heff].
Qed.

(** The scenario of the specification: three spaces in the draft field. *)
Lemma saveName_invalid_draft_aborts_witness :
  ∃ st',
    saveName page (editing page empty_storage (js "   ")) = (Normal tt, st') ∧
    nameModal_active (document st') = true ∧
    currentName st' = js "Lovie" ∧
    persisted st' = None.
Proof.
  destruct (saveName_invalid_draft_aborts page
              (editing page empty_storage (js "   ")))
    as (st' & message & Hrun & _ & _ & _ & _ & Hopen & _ & _ & Hname & Hls).
  - reflexivity.
  - left. reflexivity.
  - exists st'. unfold persisted. rewrite Hopen, Hname, Hls.
    split; [exact Hrun|]. repeat split; reflexivity.
Defined.

(** C6.  [replayAnimation] called while [state.isAnimating] is set, or on a
    page without the cake, returns normally and leaves the whole state
    (flags, document, store, timers) as it was; so does the event loop's
    dispatch of it. *)
Theorem replayAnimation_reentrant_noop els st :
  isAnimating st = true ∨ elements.cake els = false →
  replayAnimation els st = (Normal tt, st) ∧
  dispatch (replayAnimation els) st = st.
Proof.
  intros H.
  assert (Hg : isAnimating st || negb (elements.cake els) = true).
  { destruct H as [->| ->]; [done|]. by rewrite orb_true_r. }
  unfold dispatch, replayAnimation, reading. by rewrite Hg.
Qed.

Lemma replayAnimation_reentrant_noop_witness :
  let st := step page (boot page markup empty_storage)
              (Do click_playAnimationBtn) in
  isAnimating st = true ∧ replayAnimation page st = (Normal tt, st).
Proof.
  split; [reflexivity|].
  apply (replayAnimation_reentrant_noop page). left. reflexivity.
Defined.

(** A text control stores a string without line breaks as it is. *)
Lemma strip_newlines_id s : no_line_break s → strip_newlines s = s.
Proof.
  induction 1 as [|c s Hc _ IH]; [done|].
  unfold strip_newlines in *. simpl. rewrite Hc. simpl. by rewrite IH.
Qed.

Lemma normalize_newlines_id s : no_line_break s → normalize_newlines s = s.
Proof.
  induction 1 as [|c s Hc _ IH]; [done|].
  simpl. unfold is_newline in Hc. apply orb_false_iff in Hc as [_ Hc].
  by rewrite Hc, IH.
Qed.

Lemma nameInput_value_setter_id els s :
  no_line_break s → nameInput_value_setter els s = s.
Proof.
  intros H. unfold nameInput_value_setter.
  destruct (elements.nameInput_textarea els);
    [by apply normalize_newlines_id | by apply strip_newlines_id].
Qed.

(** C9 (amended).  Whatever the draft field holds, closing the dialog and
    opening it again assigns the current [state.currentName] to the draft
    field and shows the dialog.  The field then holds the name as the
    control stores it, whatever it held before: the name itself when the
    name has no line break (LF or CR). *)
Theorem closeModal_openModal_repopulates els st :
  elements.nameModal els = true →
  elements.nameInput els = true →
  ∃ st',
    (closeModal els ;; openModal els) st = (Normal tt, st') ∧
    currentName st' = currentName st ∧
    nameInput_value (document st') =
      nameInput_value_setter els (currentName st) ∧
    (no_line_break (currentName st) →
     nameInput_value (document st') = currentName st) ∧
    nameModal_active (document st') = true.
Proof.
  intros Hm Hi. open_state st.
  unfold closeModal, openModal, announceToScreenReader.
  rewrite Hm, Hi. js_simpl.
  destruct (elements.changeNameBtn els); js_simpl;
    (eexists; split; [reflexivity|]);
    (split; [done|]); (split; [done|]); (split; [|done]);
    apply nameInput_value_setter_id.
Qed.

(** A rejected 29-character draft is in the field; after close and open the
    field holds the saved name. *)
Lemma closeModal_openModal_repopulates_witness :
  let st := step page
              (editing page empty_storage (js "A very very long name indeed"))
              (Do (keypress (js "Enter"))) in
  nameInput_value (document st) = js "A very very long name indeed" ∧
  ∃ st',
    (closeModal page ;; openModal page) st = (Normal tt, st') ∧
    nameInput_value (document st') = js "Lovie".
Proof.
  split; [reflexivity|].
  destruct (closeModal_openModal_repopulates page
              (step page
                 (editing page empty_storage
                    (js "A very very long name indeed"))
                 (Do (keypress (js "Enter")))))
    as (st' & Hrun & _ & _ & Hv & _); [reflexivity..|].
  exists st'. split; [exact Hrun|]. rewrite Hv; [reflexivity|].
  vm_compute. repeat constructor.
Defined.

(** C9 as the specification states it fails: a stored name with a line
    break inside ("A", LF, "B" for a single-line field; "A", CR, "B" for a
    [<textarea>]) is loaded as [state.currentName] as it is, and after close
    and open the field holds something else. *)
Lemma reopen_alters_line_breaks :
  let textarea_page :=
    elements.mk true true true true true true true true true true true true in
  let st := boot page markup (storage_with [65; 10; 66]) in
  let st' := snd ((closeModal page ;; openModal page) st) in
  let ta := boot textarea_page markup (storage_with [65; 13; 66]) in
  let ta' := snd ((closeModal textarea_page ;; openModal textarea_page) ta) in
  (currentName st' = [65; 10; 66] ∧
   nameInput_value (document st') = [65; 66]) ∧
  (currentName ta' = [65; 13; 66] ∧
   nameInput_value (document ta') = [65; 10; 66]).
Proof. repeat split; reflexivity. Qed.

(** ** Live validation *)

(** What [validateInput] does to the save button: it is enabled exactly when
    the draft is non-blank and its untrimmed length is at most 20. *)
Lemma validateInput_button els st :
  elements.nameInput els = true →
  elements.saveNameBtn els = true →
  ∃ st',
    validateInput els st = (Normal tt, st') ∧
    saveNameBtn_disabled (document st') =
      negb (truthy (trim (nameInput_value (document st)))
            && (length (nameInput_value (document st)) <=? 20)%nat) ∧
    nameInput_value (document st') = nameInput_value (document st) ∧
    currentName st' = currentName st ∧
    localStorage st' = localStorage st ∧
    nameModal_active (document st') = nameModal_active (document st).
Proof.
  intros Hi Hs. open_state st.
  unfold validateInput, clearInputError, showInputError,
    announceToScreenReader.
  rewrite Hi, Hs. js_simpl.
  destruct (truthy (trim st_draft));
    destruct (length st_draft <=? 20)%nat;
    destruct (20 <? length st_draft)%nat; js_simpl;
    (eexists; split; [reflexivity|]); by repeat split.
Qed.

(** When the untrimmed draft is longer than 20 code units, [validateInput]
    disables the button and shows the too-long message. *)
Lemma validateInput_too_long els st :
  elements.nameInput els = true →
  elements.saveNameBtn els = true →
  (20 < length (nameInput_value (document st)))%nat →
  ∃ st',
    validateInput els st = (Normal tt, st') ∧
    saveNameBtn_disabled (document st') = true ∧
    nameInput_parentNode (document st') =
      (λ errs, tail errs ++ [js "Name must be 20 characters or less"])
        <$> nameInput_parentNode (document st) ∧
    nameInput_value (document st') = nameInput_value (document st) ∧
    currentName st' = currentName st ∧
    localStorage st' = localStorage st.
Proof.
  intros Hi Hs Hlen. open_state st.
  assert (Hle : (length st_draft <=? 20)%nat = false)
    by (apply Nat.leb_gt; lia).
  apply Nat.ltb_lt in Hlen.
  unfold validateInput, showInputError, announceToScreenReader.
  rewrite Hi, Hs. js_simpl. rewrite Hle, Hlen.
  destruct (truthy (trim st_draft)); js_simpl;
    (eexists; split; [reflexivity|]); repeat split;
    by destruct st_parent.
Qed.

(** The specification's [Valid] is: non-empty and at most 20 long once
    trimmed.  [saveName] accepts exactly these drafts ([saveName_accepts],
    [saveName_refuses]). *)
Lemma validateDraft_Valid s :
  validateDraft s = Valid ↔ trim s ≠ [] ∧ (length (trim s) ≤ 20)%nat.
Proof.
  unfold validateDraft. rewrite <- truthy_true.
  destruct (truthy (trim s)); simpl; [|split; [done|by intros [? _]]].
  destruct (20 <? length (trim s))%nat eqn:E.
  - apply Nat.ltb_lt in E. split; [done|]. intros [_ ?]. lia.
  - apply Nat.ltb_ge in E. done.
Qed.

(** C1 (the code departs from the specification).  With one letter and twenty
    trailing spaces in the draft field the trimmed draft is the single letter
    (non-empty, at most 20 code units: [Valid] as specified), yet
    [validateInput] disables the save button and shows the too-long error:
    it tests the untrimmed length. *)
Theorem validateInput_rejects_padded_draft els st :
  elements.nameInput els = true →
  elements.saveNameBtn els = true →
  nameInput_value (document st) = padded_draft →
  trim padded_draft = js "a" ∧
  validateDraft padded_draft = Valid ∧
  ∃ st',
    validateInput els st = (Normal tt, st') ∧
    saveNameBtn_disabled (document st') = true ∧
    nameInput_parentNode (document st') =
      (λ errs, tail errs ++ [js "Name must be 20 characters or less"])
        <$> nameInput_parentNode (document st).
Proof.
  intros Hi Hs Hv. split; [reflexivity|]. split; [reflexivity|].
  destruct (validateInput_too_long els st Hi Hs) as (st' & H1 & H2 & H3 & _).
  - rewrite Hv. vm_compute. lia.
  - by exists st'.
Qed.

Lemma validateInput_rejects_padded_draft_witness :
  ∃ st',
    validateInput page
      (with_document (set_nameInput_value padded_draft)
         (boot page markup empty_storage)) = (Normal tt, st') ∧
    saveNameBtn_disabled (document st') = true ∧
    nameInput_parentNode (document st') =
      Some [js "Name must be 20 characters or less"].
Proof.
  destruct (validateInput_rejects_padded_draft page
              (with_document (set_nameInput_value padded_draft)
                 (boot page markup empty_storage)))
    as (_ & _ & st' & H1 & H2 & H3); [reflexivity..|].
  exists st'. split; [exact H1|]. split; [exact H2|]. rewrite H3. reflexivity.
Defined.

(** C10.  A draft whose untrimmed length exceeds 20 while its trimmed form is
    non-empty and at most 20 long: after the edit the save button is
    disabled and a click on it does nothing, yet Enter in the field runs
    [saveName], which stores and adopts the trimmed draft. *)
Theorem enter_saves_what_the_button_blocks els st s :
  elements.nameInput els = true →
  elements.saveNameBtn els = true →
  writable (localStorage st) = true →
  (20 < length s)%nat →
  trim s ≠ [] →
  (length (trim s) ≤ 20)%nat →
  let st1 := step els st (Do (input s)) in
  let st2 := step els st1 (Do (keypress (js "Enter"))) in
  saveNameBtn_disabled (document st1) = true ∧
  step els st1 (Do click_saveNameBtn) = st1 ∧
  currentName st1 = currentName st ∧
  currentName st2 = trim s ∧
  persisted st2 = Some (trim s).
Proof.
  intros Hi Hs Hw Hlen Hne Htrim st1 st2.
  destruct (validateInput_too_long els
              (with_document (set_nameInput_selected false)
                 (with_document (set_nameInput_value s) st)) Hi Hs)
    as (st1' & Hrun1 & Hdis & _ & Hval & Hname & Hls); [by destruct st as [? ? []]|].
  assert (Hst1 : st1 = st1').
  { unfold st1, step, dispatch, listener. rewrite Hi.
    unfold mbind, Js_bind, modify at 1 2. by rewrite Hrun1. }
  assert (Hv1 : nameInput_value (document st1) = s).
  { rewrite Hst1, Hval. by destruct st as [? ? []]. }
  destruct (saveName_accepts els st1 (trim s) Hi) as (st2' & Hrun2 & Hn2 & Hit2 & _);
    [by rewrite Hv1|done|done| |].
  { rewrite Hst1, Hls. by destruct st as [? ? ? []]. }
  assert (Hst2 : st2 = st2').
  { unfold st2, step, dispatch, listener.
    rewrite Hi, str_eqb_refl. simpl. by rewrite Hrun2. }
  split; [by rewrite Hst1|].
  split.
  { unfold step, dispatch, listener, when_st, reading.
    rewrite Hs, Hst1, Hdis. reflexivity. }
  split; [rewrite Hst1, Hname; by destruct st|].
  split; [by rewrite Hst2|].
  unfold persisted. rewrite Hst2, Hit2. apply lookup_insert_eq.
Qed.

Lemma enter_saves_what_the_button_blocks_witness :
  let st1 := step page (boot page markup empty_storage)
               (Do (input padded_draft)) in
  let st2 := step page st1 (Do (keypress (js "Enter"))) in
  saveNameBtn_disabled (document st1) = true ∧
  currentName st2 = js "a" ∧
  persisted st2 = Some (js "a").
Proof.
  destruct (enter_saves_what_the_button_blocks page
              (boot page markup empty_storage) padded_draft)
    as (H1 & _ & _ & H2 & H3);
    [reflexivity | reflexivity | reflexivity | vm_compute; lia | discriminate
    | vm_compute; lia |].
  split; [exact H1|]. split; [exact H2 | exact H3].
Defined.

Lemma elem_of_foldr_enqueue (x : Timer) later q :
  x ∈ q → x ∈ foldr enqueue q later.
Proof.
  intros Hx. induction later as [|t later IH]; [done|].
  simpl. apply elem_of_enqueue. by right.
Qed.

(** What the [window] error listener does to the state it finds. *)
Lemma windowErrorListener_effect st :
  ∃ st',
    windowErrorListener st = (Normal tt, st') ∧
    currentName st' = currentName st ∧
    isAnimating st' = isAnimating st ∧
    localStorage st' = localStorage st ∧
    nameModal_active (document st') = nameModal_active (document st) ∧
    recipientName_textContent (document st') =
      recipientName_textContent (document st) ∧
    ∃ banner, banner ∈ body_children (document st') ∧
              node_kind banner = ErrorNotification.
Proof.
  open_state st. unfold windowErrorListener. js_simpl.
  eexists. split; [reflexivity|]. js_simpl. repeat (split; [reflexivity|]).
  eexists. split; [apply elem_of_app; right; by apply list_elem_of_singleton|].
  reflexivity.
Qed.

(** C5 (amended).  On a draft that passes validation [saveName] sets
    [state.currentName] and schedules the label update 150 ms ahead whether
    or not the store accepts the write.  If the write succeeds the handler
    returns normally with the dialog closed.  If the write throws, the
    exception leaves [saveName]: the dialog's visibility and the store are
    untouched, and once the fault has been reported to the [window] error
    listener the dialog is still as it was, with the error banner added. *)
Theorem saveName_store_outcome els st n :
  elements.nameInput els = true →
  trim (nameInput_value (document st)) = n →
  n ≠ [] → (length n ≤ 20)%nat →
  ∃ c st',
    saveName els st = (c, st') ∧
    currentName st' = n ∧
    (elements.recipientName els = true →
     (clock st + 150, LabelUpdate n) ∈ timers st') ∧
    if writable (localStorage st) then
      c = Normal tt ∧
      (elements.nameModal els = true →
       nameModal_active (document st') = false)
    else
      c = Throw QuotaExceededError ∧
      nameModal_active (document st') = nameModal_active (document st) ∧
      localStorage st' = localStorage st ∧
      let st'' := dispatch (saveName els) st in
      currentName st'' = n ∧
      nameModal_active (document st'') = nameModal_active (document st) ∧
      ∃ banner, banner ∈ body_children (document st'') ∧
                node_kind banner = ErrorNotification.
Proof.
  intros Hi Hn Hne Hlen. destruct (writable (localStorage st)) eqn:Hw.
  - destruct (saveName_accepts els st n Hi Hn Hne Hlen Hw)
      as (st' & Hrun & Hname & _ & _ & _ & _ & Hm & _ & Ht).
    exists (Normal tt), st'. split; [done|]. split; [done|]. split.
    + intros Hr. destruct (Ht Hr) as (later & -> & _).
      apply elem_of_foldr_enqueue, elem_of_enqueue. by left.
    + split; [done|]. intros Hm'. by rewrite Hm, Hm'.
  - destruct (saveName_store_throws els st n Hi Hn Hne Hlen Hw)
      as (st' & Hrun & Hname & Hls & Hm & _ & Ht).
    exists (Throw QuotaExceededError), st'.
    split; [done|]. split; [done|]. split.
    + intros Hr. rewrite Ht, Hr. apply elem_of_enqueue. by left.
    + repeat (split; [done|]). unfold dispatch. rewrite Hrun.
      destruct (windowErrorListener_effect st')
        as (st'' & -> & Hn'' & _ & _ & Hm'' & _ & Hb).
      simpl. rewrite Hn'', Hm''. by repeat split.
Qed.

Lemma saveName_store_outcome_witness :
  ∃ st',
    saveName page (editing page empty_storage (js "  Alex  "))
      = (Normal tt, st') ∧
    currentName st' = js "Alex" ∧
    (150, LabelUpdate (js "Alex")) ∈ timers st' ∧
    nameModal_active (document st') = false.
Proof.
  destruct (saveName_store_outcome page
              (editing page empty_storage (js "  Alex  ")) (js "Alex"))
    as (c & st' & Hrun & Hname & Ht & Hc & Hm);
    [reflexivity | reflexivity | discriminate | vm_compute; lia |].
  exists st'. rewrite Hrun, Hc.
  split; [reflexivity|]. split; [exact Hname|].
  split; [by apply Ht | by apply Hm].
Defined.

(** C5 as the specification states it fails: with "Alex" in the draft field
    and a store that refuses the write, [saveName] throws and, after the
    [window] error listener has run, the dialog is still open. *)
Lemma store_throw_prevents_close :
  let st := editing page full_storage (js "Alex") in
  nameModal_active (document st) = true ∧
  trim (nameInput_value (document st)) = js "Alex" ∧
  fst (saveName page st) = Throw QuotaExceededError ∧
  nameModal_active (document (dispatch (saveName page) st)) = true.
Proof. repeat split; reflexivity. Qed.

(** ** Startup *)

(** C8 (amended).  After [init]: with no persisted value, or one that is
    blank after trimming, [state.currentName] is "Lovie" and the label is as
    served; otherwise [state.currentName] is the persisted value trimmed,
    the dialog's visibility is as served, and, where the label element
    exists, any turn of the event loop at least 150 ms later leaves the
    trimmed value in the label with the dialog still as served. *)
Theorem startup_name els d ls :
  let st := boot els d ls in
  match items ls !! storageKey with
  | Some v =>
      if truthy (trim v) then
        currentName st = trim v ∧
        nameModal_active (document st) = nameModal_active d ∧
        (elements.recipientName els = true →
         ∀ ms, 150 ≤ ms →
           recipientName_textContent (document (tick els ms st)) = trim v ∧
           nameModal_active (document (tick els ms st)) = nameModal_active d)
      else
        currentName st = js "Lovie" ∧
        recipientName_textContent (document st) = recipientName_textContent d
  | None =>
      currentName st = js "Lovie" ∧
      recipientName_textContent (document st) = recipientName_textContent d
  end.
Proof.
  intros st. subst st. unfold boot, fresh, dispatch, init, loadSavedName.
  destruct d, ls as [its wr]. js_simpl.
  destruct (its !! storageKey) as [v|] eqn:Hv; js_simpl.
  - assert (Hb : (if truthy v then truthy (trim v) else false) = truthy (trim v)).
    { destruct v; [|done]. reflexivity. }
    rewrite Hb. destruct (truthy (trim v)) eqn:Ht; js_simpl.
    + unfold updateDisplayedName, windowErrorListener.
      destruct (elements.recipientName els) eqn:Hr,
        (elements.messageSection els), (elements.messageCard els); js_simpl;
        (split; [reflexivity|]); (split; [reflexivity|]);
        intros Hr' ms Hms; try discriminate.
      all: assert (Hdue : (0 + 150 <=? 0 + ms) = true) by (apply N.leb_le; lia).
      all: unfold tick; js_simpl; simpl enqueue; simpl split_due; rewrite Hdue.
      all: try destruct (0 + 5000 <=? 0 + ms).
      all: simpl fold_left; unfold fire, dispatch, run_callback; rewrite Hr.
      all: js_simpl; by split.
    + unfold windowErrorListener.
      destruct (elements.messageSection els), (elements.messageCard els);
        js_simpl; by split.
  - unfold windowErrorListener.
    destruct (elements.messageSection els), (elements.messageCard els);
      js_simpl; by split.
Qed.

(** The scenario of the specification: "Sam" is stored. *)
Lemma startup_name_witness :
  let st := boot page markup (storage_with (js "Sam")) in
  currentName st = js "Sam" ∧
  nameModal_active (document st) = false ∧
  recipientName_textContent (document (tick page 150 st)) = js "Sam".
Proof.
  pose proof (startup_name page markup (storage_with (js "Sam"))) as H.
  change (items (storage_with (js "Sam")) !! storageKey)
    with (Some (js "Sam")) in H.
  change (truthy (trim (js "Sam"))) with true in H. cbv iota zeta in H.
  destruct H as (H1 & H2 & H3).
  split; [exact H1|]. split; [exact H2|].
  apply (H3 eq_refl 150). reflexivity.
Defined.

(** C8 as the specification states it fails: with " Sam " stored (a value
    that is not blank after trimming) [state.currentName] is "Sam", not the
    stored value. *)
Lemma startup_name_is_trimmed :
  let ls := storage_with (js " Sam ") in
  items ls !! storageKey = Some (js " Sam ") ∧
  truthy (trim (js " Sam ")) = true ∧
  currentName (boot page markup ls) = js "Sam" ∧
  currentName (boot page markup ls) ≠ js " Sam ".
Proof. repeat split; try reflexivity. discriminate. Qed.

(** ** Reasoning about handlers *)

Lemma hoare_ret {A} P (a : A) Q E :
  (∀ st, P st → Q a st) → hoare P (mret a) Q E.
Proof. intros H st HP. by apply H. Qed.

Lemma hoare_bind {A B} P (m : Js A) (f : A → Js B) R Q E :
  hoare P m R E → (∀ a, hoare (R a) (f a) Q E) → hoare P (m ≫= f) Q E.
Proof.
  intros Hm Hf st HP. specialize (Hm st HP).
  unfold mbind, Js_bind. destruct (m st) as [[a|e] st']; [by apply Hf|done].
Qed.

Lemma hoare_modify P f (Q : unit → State → Prop) E :
  (∀ st, P st → Q tt (f st)) → hoare P (modify f) Q E.
Proof. intros H st HP. by apply H. Qed.

Lemma hoare_throw {A} P e (Q : A → State → Prop) E :
  (∀ st, P st → E st) → hoare P (throw e) Q E.
Proof. intros H st HP. by apply H. Qed.

Lemma hoare_reading {A} P (f : State → Js A) Q E :
  (∀ st0, hoare P (f st0) Q E) → hoare P (reading f) Q E.
Proof. intros H st HP. by apply (H st st). Qed.

(** A handler that keeps [I] whether it returns or throws keeps it across
    the event loop's dispatch, the error listener included. *)
Lemma hoare_snd {A} I (m : Js A) st :
  hoare I m (λ _, I) I → I st → I (snd (m st)).
Proof.
  intros H HI. specialize (H st HI). by destruct (m st) as [[a|e] st'].
Qed.

Lemma keeps_node I `{!Framed I} k text anim cb ms E :
  node_callback cb →
  hoare I (body_appendChild k text anim ≫= λ id, setTimeout (cb id) ms)
    (λ _, I) E.
Proof.
  intros Hcb st HI. pose proof (framed_node k text anim cb ms st Hcb HI) as H.
  revert H. unfold mbind, Js_bind, body_appendChild, setTimeout, modify. done.
Qed.

Lemma keeps_label I `{!Framed I} name E :
  hoare I (setTimeout (LabelUpdate name) 150) (λ _, I) E.
Proof. intros st HI. by apply framed_label. Qed.

Lemma keeps_setItem I `{!NameBlind I} k v :
  hoare I (localStorage_setItem k v) (λ _, I) I.
Proof.
  intros st HI. unfold localStorage_setItem.
  destruct (writable (localStorage st)); [|done]. by apply blind_localStorage.
Qed.

Ltac doc_safe := intros ?; reflexivity.

(** One step of a proof that a handler keeps a framed assertion: follow the
    program text, discharging each primitive by the class. *)
Ltac framed_leaf :=
  lazymatch goal with
  | |- _ (with_document _ _) =>
      apply framed_document; first [typeclasses eauto | doc_safe | assumption]
  | |- _ (set_currentName _ _) =>
      apply blind_currentName; first [typeclasses eauto | assumption]
  end.

Ltac framed_step :=
  lazymatch goal with
  | |- hoare _ (mret _) _ _ => apply hoare_ret; intros ? ?; assumption
  | |- hoare _ (throw _) _ _ => apply hoare_throw; intros ? ?; assumption
  | |- hoare _ (body_appendChild _ _ _ ≫= _) _ _ =>
      apply keeps_node; first [typeclasses eauto | by left | by right]
  | |- hoare _ (setTimeout (LabelUpdate _) 150) _ _ =>
      apply keeps_label; typeclasses eauto
  | |- hoare _ (localStorage_setItem _ _) _ _ =>
      apply keeps_setItem; typeclasses eauto
  | |- hoare _ (localStorage_getItem _) _ _ => intros ? ?; assumption
  | |- hoare ?I (_ ≫= _) _ _ =>
      apply (hoare_bind I _ _ (λ _, I)); [|intros ?]
  | |- hoare _ (reading _) _ _ => apply hoare_reading; intros ?
  | |- hoare _ (modify _) _ _ =>
      apply hoare_modify; intros ? ?; cbv beta; framed_leaf
  | |- hoare _ (if ?b then _ else _) _ _ => destruct b
  | |- hoare _ (match ?o with Some _ => _ | None => _ end) _ _ => destruct o
  | |- hoare _ (let _ := _ in _) _ _ => cbv zeta
  end.

Ltac framed := unfold when_st; unfold skip; repeat framed_step.

Section Frame.
Context (els : elements.t) (I : State → Prop) `{!Framed I}.

Lemma announceToScreenReader_keeps E message :
  hoare I (announceToScreenReader message) (λ _, I) E.
Proof. unfold announceToScreenReader. framed. Qed.

Lemma updateDisplayedName_keeps E name :
  hoare I (updateDisplayedName els name) (λ _, I) E.
Proof. unfold updateDisplayedName. framed. Qed.

Lemma closeModal_keeps E : hoare I (closeModal els) (λ _, I) E.
Proof. unfold closeModal. framed; apply announceToScreenReader_keeps. Qed.

Lemma openModal_keeps E : hoare I (openModal els) (λ _, I) E.
Proof. unfold openModal. framed; apply announceToScreenReader_keeps. Qed.

Lemma showInputError_keeps E message :
  hoare I (showInputError els message) (λ _, I) E.
Proof. unfold showInputError. framed; apply announceToScreenReader_keeps. Qed.

Lemma clearInputError_keeps E : hoare I (clearInputError els) (λ _, I) E.
Proof. unfold clearInputError. framed. Qed.

Lemma validateInput_keeps E : hoare I (validateInput els) (λ _, I) E.
Proof.
  unfold validateInput. framed;
    first [apply clearInputError_keeps | apply showInputError_keeps].
Qed.

Lemma showSuccessMessage_keeps E message :
  hoare I (showSuccessMessage els message) (λ _, I) E.
Proof. unfold showSuccessMessage. framed. Qed.

Lemma windowErrorListener_keeps E : hoare I windowErrorListener (λ _, I) E.
Proof. unfold windowErrorListener. framed. Qed.

(** Dispatching a handler that keeps [I]. *)
Lemma dispatch_keeps (P : State → Prop) (h : Js unit) st :
  hoare P h (λ _, I) I → P st → I (dispatch h st).
Proof.
  intros Hh HI. unfold dispatch. specialize (Hh st HI).
  destruct (h st) as [[[]|e] st']; [done|].
  apply (hoare_snd I windowErrorListener); [|done].
  apply windowErrorListener_keeps.
Qed.

(** The two timer bodies that only touch the document. *)
Lemma run_callback_label_keeps name :
  hoare I (run_callback els (LabelUpdate name)) (λ _, I) I.
Proof. unfold run_callback. framed. Qed.

Lemma run_callback_remove_keeps id :
  hoare I (run_callback els (RemoveNode id)) (λ _, I) I.
Proof. unfold run_callback, body_removeChild. framed. Qed.

(** Every listener keeps [I] as soon as [saveName] and [replayAnimation]
    do. *)
Lemma listener_keeps_with ev :
  hoare I (saveName els) (λ _, I) I →
  hoare I (replayAnimation els) (λ _, I) I →
  hoare I (listener els ev) (λ _, I) I.
Proof.
  intros Hsave Hreplay.
  destruct ev; unfold listener, handleKeyboardNavigation; framed;
    first [ assumption | apply openModal_keeps | apply closeModal_keeps
          | apply validateInput_keeps ].
Qed.

Lemma step_do_keeps_with ev st :
  hoare I (saveName els) (λ _, I) I →
  hoare I (replayAnimation els) (λ _, I) I →
  I st → I (step els st (Do ev)).
Proof.
  intros Hsave Hreplay HI. apply (dispatch_keeps I); [|done].
  by apply listener_keeps_with.
Qed.

Section Handlers.
Context `{!NameBlind I}.

Lemma saveName_keeps : hoare I (saveName els) (λ _, I) I.
Proof.
  unfold saveName. framed;
    first [ apply showInputError_keeps | apply updateDisplayedName_keeps
          | apply closeModal_keeps | apply showSuccessMessage_keeps
          | apply announceToScreenReader_keeps ].
Qed.

Lemma loadSavedName_keeps : hoare I (loadSavedName els) (λ _, I) I.
Proof. unfold loadSavedName. framed; apply updateDisplayedName_keeps. Qed.

Lemma init_keeps : hoare I (init els) (λ _, I) I.
Proof. unfold init. framed. apply loadSavedName_keeps. Qed.

Lemma step_do_keeps ev st :
  hoare I (replayAnimation els) (λ _, I) I →
  I st → I (step els st (Do ev)).
Proof. apply step_do_keeps_with, saveName_keeps. Qed.

End Handlers.
End Frame.

(** ** The timer queue is well formed in every reachable state *)

Lemma Forall_enqueue (P : Timer → Prop) t q :
  Forall P (enqueue t q) ↔ P t ∧ Forall P q.
Proof.
  induction q as [|u q IH]; simpl.
  - rewrite Forall_singleton, Forall_nil. tauto.
  - destruct (fst u <=? fst t); rewrite !Forall_cons; [rewrite IH|]; tauto.
Qed.

Lemma enqueue_sorted t q :
  StronglySorted due_le q → StronglySorted due_le (enqueue t q).
Proof.
  induction 1 as [|u q Hq IH Hu]; simpl.
  - repeat constructor.
  - destruct (fst u <=? fst t) eqn:Hcmp.
    + constructor; [done|]. apply Forall_enqueue. split; [|done].
      by apply N.leb_le in Hcmp.
    + apply N.leb_gt in Hcmp. constructor; [by constructor|].
      constructor; [unfold due_le; lia|].
      eapply Forall_impl; [exact Hu|]. unfold due_le. intros; lia.
Qed.

Lemma count_done_app l q : count_done (l ++ q) = (count_done l + count_done q)%nat.
Proof. induction l as [|t l IH]; simpl; [done|]. rewrite IH. lia. Qed.

Lemma count_done_enqueue t q :
  count_done (enqueue t q) = ((if is_done t then 1 else 0) + count_done q)%nat.
Proof.
  induction q as [|u q IH]; simpl; [done|].
  destruct (fst u <=? fst t); simpl; [rewrite IH|]; lia.
Qed.

Lemma timer_ok_mono c c' n n' t :
  c ≤ c' → (n ≤ n')%nat → timer_ok c n t → timer_ok c' n' t.
Proof. unfold timer_ok. destruct (snd t); intros; lia || done. Qed.

(** The timers that come due form a prefix of the queue. *)
Lemma split_due_spec t q ready rest :
  split_due t q = (ready, rest) →
  q = ready ++ rest ∧ Forall (λ u, fst u ≤ t) ready.
Proof.
  revert ready rest. induction q as [|u q IH]; simpl; intros ready rest.
  - intros [= <- <-]. by split.
  - destruct (fst u <=? t) eqn:Hcmp.
    + destruct (split_due t q) as [r k]. intros [= <- <-].
      destruct (IH r k eq_refl) as [-> Hr]. split; [done|].
      constructor; [by apply N.leb_le|done].
    + intros [= <- <-]. by split.
Qed.

(** In a sorted queue nothing that stays is due. *)
Lemma split_due_rest t q ready rest :
  StronglySorted due_le q → split_due t q = (ready, rest) →
  Forall (λ u, t < fst u) rest.
Proof.
  intros Hq. revert ready rest.
  induction Hq as [|u q Hq IH Hu]; simpl; intros ready rest.
  - intros [= <- <-]. constructor.
  - destruct (fst u <=? t) eqn:Hcmp.
    + destruct (split_due t q) as [r k]. intros [= <- <-]. by eapply IH.
    + apply N.leb_gt in Hcmp. intros [= <- <-]. constructor; [done|].
      eapply Forall_impl; [exact Hu|]. unfold due_le. intros; lia.
Qed.

(** Scheduling a timer that is neither the cooldown nor ill formed. *)
Lemma setTimeout_wf l cb ms st :
  queue_wf l st →
  timer_ok (clock st) (next_node st) (clock st + ms, cb) →
  cb ≠ AnimationDone →
  queue_wf l (snd (setTimeout cb ms st)).
Proof.
  intros [Hs Ht Hd] Hok Hcb. constructor; simpl.
  - by apply enqueue_sorted.
  - apply Forall_app in Ht as [Hl Hq]. apply Forall_app. split; [done|].
    by apply Forall_enqueue.
  - rewrite count_done_app, count_done_enqueue.
    rewrite count_done_app in Hd.
    assert (is_done (clock st + ms, cb) = false) as -> by by destruct cb.
    simpl in *. lia.
Qed.

Lemma queue_wf_document l f st : queue_wf l st → queue_wf l (with_document f st).
Proof. intros [Hs Ht Hd]. by constructor. Qed.

Lemma queue_wf_next l st :
  queue_wf l st → queue_wf l (set_next_node (S (next_node st)) st).
Proof.
  intros [Hs Ht Hd]. constructor; simpl; [done| |done].
  eapply Forall_impl; [exact Ht|]. intros t. apply timer_ok_mono; lia.
Qed.

#[export] Instance queue_wf_framed l : Framed (queue_wf l).
Proof.
  split.
  - intros f st _. apply queue_wf_document.
  - intros name st H. apply setTimeout_wf; [done| |done].
    unfold timer_ok. simpl. lia.
  - intros k text anim cb ms st Hcb H.
    unfold mbind, Js_bind, body_appendChild.
    apply setTimeout_wf.
    + apply (queue_wf_next l (with_document _ st)).
      by apply queue_wf_document.
    + destruct Hcb as [-> | ->]; unfold timer_ok; simpl; lia.
    + by destruct Hcb as [-> | ->].
Qed.

#[export] Instance queue_wf_blind l : NameBlind (queue_wf l).
Proof. split; intros v st [Hs Ht Hd]; by constructor. Qed.

(** Dropping the timer at the head of the turn's batch. *)
Lemma queue_wf_tail t l st :
  queue_wf (t :: l) st → queue_wf l st.
Proof.
  intros [Hs Ht Hd]. constructor; [done|by inversion Ht|].
  simpl in Hd. lia.
Qed.

(** [replayAnimation] schedules the cooldown only when none is pending. *)
Lemma replayAnimation_wf els l :
  hoare (queue_wf l) (replayAnimation els) (λ _, queue_wf l) (queue_wf l).
Proof.
  intros st H. unfold replayAnimation, reading.
  destruct (isAnimating st || negb (elements.cake els)) eqn:Hg; [done|].
  apply orb_false_iff in Hg as [Ha _].
  destruct H as [Hs Ht Hd]. rewrite Ha in Hd.
  unfold announceToScreenReader. open_state st. subst.
  apply Forall_app in Ht as [Hl Hq]. rewrite count_done_app in Hd.
  destruct (elements.playAnimationBtn els); js_simpl.
  - constructor; js_simpl.
    + by do 2 apply enqueue_sorted.
    + apply Forall_app. split.
      * eapply Forall_impl; [exact Hl|]. intros t. apply timer_ok_mono; lia.
      * do 2 (apply Forall_enqueue; split; [unfold timer_ok; simpl; lia|]).
        eapply Forall_impl; [exact Hq|]. intros t. apply timer_ok_mono; lia.
    + rewrite count_done_app, !count_done_enqueue. simpl. lia.
  - constructor; js_simpl; [done|by apply Forall_app|].
    rewrite count_done_app. lia.
Qed.

(** The body of the cooldown timer, once the flag has been cleared. *)
Lemma run_callback_done_wf els l :
  hoare (λ st, queue_wf l (set_isAnimating false st))
    (run_callback els AnimationDone) (λ _, queue_wf l) (queue_wf l).
Proof.
  unfold run_callback.
  apply (hoare_bind _ _ _ (λ _, queue_wf l)); [by apply hoare_modify|].
  intros _. apply (hoare_bind _ _ _ (λ _, queue_wf l)).
  { destruct (elements.playAnimationBtn els).
    - apply hoare_modify. intros st H. by apply queue_wf_document.
    - by apply hoare_throw. }
  intros _. apply (hoare_bind _ _ _ (λ _, queue_wf l)).
  { apply hoare_modify. intros st H. by apply queue_wf_document. }
  intros _. apply (announceToScreenReader_keeps (queue_wf l)).
Qed.

(** Running one timer of the turn's batch. *)
Lemma fire_wf els t l st :
  queue_wf (t :: l) st → queue_wf l (fire els st t).
Proof.
  intros H. unfold fire. destruct t as [due cb]. simpl snd.
  destruct cb as [name| |id|id].
  - apply (dispatch_keeps (queue_wf l) (queue_wf l));
      [|by eapply queue_wf_tail].
    apply (run_callback_label_keeps els (queue_wf l)).
  - (* AnimationDone: it was the only pending cooldown *)
    eapply (dispatch_keeps (queue_wf l)); [apply run_callback_done_wf|].
    destruct H as [Hs Ht Hd]. simpl in Hd.
    constructor; simpl; [done|by inversion Ht|].
    destruct (isAnimating st); lia.
  - (* SuccessFade: the node it names exists *)
    assert (Hid : (id < next_node st)%nat).
    { destruct H as [_ Ht _]. by inversion Ht. }
    unfold dispatch, run_callback, mbind, Js_bind, modify.
    apply setTimeout_wf; [|unfold timer_ok; simpl; lia|done].
    do 2 apply queue_wf_document. by eapply queue_wf_tail.
  - apply (dispatch_keeps (queue_wf l) (queue_wf l));
      [|by eapply queue_wf_tail].
    apply (run_callback_remove_keeps els (queue_wf l)).
Qed.

Lemma fold_fire_wf els ready st :
  queue_wf ready st → queue_wf [] (fold_left (fire els) ready st).
Proof.
  revert st. induction ready as [|t l IH]; intros st H; [done|].
  simpl. by apply IH, fire_wf.
Qed.

Lemma tick_wf els ms st : queue_wf [] st → queue_wf [] (tick els ms st).
Proof.
  intros [Hs Ht Hd]. unfold tick. simpl in *.
  destruct (split_due (clock st + ms) (timers st)) as [ready rest] eqn:Hsplit.
  destruct (split_due_spec _ _ _ _ Hsplit) as [Hq _].
  apply fold_fire_wf. rewrite Hq in *. constructor; simpl.
  - by apply StronglySorted_app_1_r in Hs.
  - eapply Forall_impl; [exact Ht|]. intros t. apply timer_ok_mono; lia.
  - done.
Qed.

Lemma step_wf els st a : queue_wf [] st → queue_wf [] (step els st a).
Proof.
  intros H. destruct a as [ev|ms].
  - apply (step_do_keeps els (queue_wf [])); [|done]. apply replayAnimation_wf.
  - by apply tick_wf.
Qed.

Lemma boot_wf els d ls : queue_wf [] (boot els d ls).
Proof.
  apply (dispatch_keeps (queue_wf []) (queue_wf [])).
  - apply (init_keeps els (queue_wf [])).
  - constructor; simpl; [constructor|constructor|lia].
Qed.

Lemma reachable_wf els st : reachable els st → queue_wf [] st.
Proof. induction 1; [apply boot_wf | by apply step_wf]. Qed.

Lemma reachable_run els acts st :
  reachable els st → reachable els (run els acts st).
Proof.
  revert st. induction acts as [|a acts IH]; intros st H; [done|].
  simpl. apply IH. by constructor.
Qed.

(** ** The label after a save *)













(** ** The name across a whole session *)

(** [name_inv] only looks at [state.currentName] and the store. *)
Lemma name_inv_ext st st' :
  currentName st' = currentName st →
  localStorage st' = localStorage st →
  name_inv st → name_inv st'.
Proof.
  intros Hn Hl [H1 H2 H3]. unfold mirrors_store, persisted in *.
  constructor; unfold mirrors_store, persisted; rewrite ?Hn, ?Hl; done.
Qed.

#[export] Instance name_inv_framed : Framed name_inv.
Proof.
  split.
  - intros f st _. by apply name_inv_ext.
  - intros name st. by apply name_inv_ext.
  - intros k text anim cb ms st _. by apply name_inv_ext.
Qed.

(** The timer bodies and [replayAnimation] leave the name and the store
    alone. *)
Lemma fire_name els st t :
  currentName (fire els st t) = currentName st ∧
  localStorage (fire els st t) = localStorage st.
Proof.
  destruct t as [d cb].
  unfold fire, dispatch, run_callback, announceToScreenReader,
    windowErrorListener, body_removeChild. simpl snd.
  destruct cb; open_state st;
    try destruct (elements.playAnimationBtn els);
    try destruct (elements.recipientName els); by js_simpl.
Qed.

Lemma replayAnimation_name els st :
  currentName (snd (replayAnimation els st)) = currentName st ∧
  localStorage (snd (replayAnimation els st)) = localStorage st.
Proof.
  unfold replayAnimation, announceToScreenReader, reading.
  destruct (isAnimating st || negb (elements.cake els)); [done|].
  open_state st. by destruct (elements.playAnimationBtn els).
Qed.

Lemma replayAnimation_name_inv els :
  hoare name_inv (replayAnimation els) (λ _, name_inv) name_inv.
Proof.
  intros st H. destruct (replayAnimation_name els st) as [Hn Hl].
  destruct (replayAnimation els st) as [[[]|e] st'];
    by apply (name_inv_ext st).
Qed.

Lemma saveName_name_inv els :
  hoare name_inv (saveName els) (λ _, name_inv) name_inv.
Proof.
  intros st H.
  destruct (elements.nameInput els) eqn:Hi.
  2:{ unfold saveName. by rewrite Hi. }
  set (n := trim (nameInput_value (document st))).
  destruct (decide (n = [] ∨ (20 < length n)%nat)) as [Hbad|Hgood].
  { rewrite (saveName_refuses els st Hi Hbad).
    by apply (showInputError_keeps els name_inv name_inv _ st). }
  assert (Hne : n ≠ []) by tauto.
  assert (Hlen : (length n ≤ 20)%nat) by lia.
  destruct H as [H1 H2 H3].
  destruct (writable (localStorage st)) eqn:Hw.
  - destruct (saveName_accepts els st n Hi eq_refl Hne Hlen Hw)
      as (st' & -> & Hname & Hitems & Hw' & _).
    assert (Htrim : trim n = n) by apply trim_idemp.
    constructor.
    + by rewrite Hname.
    + intros v. rewrite Hitems, lookup_insert_eq. intros [= <-].
      by rewrite Htrim.
    + intros _. unfold mirrors_store, persisted.
      rewrite Hname, Hitems, lookup_insert_eq, Htrim.
      apply truthy_true in Hne. by rewrite Hne.
  - destruct (saveName_store_throws els st n Hi eq_refl Hne Hlen Hw)
      as (st' & -> & Hname & Hl & _).
    constructor.
    + by rewrite Hname.
    + by rewrite Hl.
    + rewrite Hl, Hw. discriminate.
Qed.

(** What [init] leaves in [state.currentName]. *)
Lemma boot_name els d ls :
  currentName (boot els d ls) =
    match items ls !! storageKey with
    | Some v => if truthy (trim v) then trim v else js "Lovie"
    | None => js "Lovie"
    end ∧
  localStorage (boot els d ls) = ls.
Proof.
  unfold boot, fresh, dispatch, init, loadSavedName, updateDisplayedName,
    windowErrorListener.
  destruct d, ls as [its wr]. js_simpl.
  destruct (its !! storageKey) as [v|]; js_simpl.
  - assert (Hb : (if truthy v then truthy (trim v) else false)
                 = truthy (trim v)) by by destruct v.
    rewrite Hb.
    destruct (truthy (trim v)), (elements.recipientName els),
      (elements.messageSection els), (elements.messageCard els); by js_simpl.
  - destruct (elements.messageSection els), (elements.messageCard els);
      by js_simpl.
Qed.

Lemma boot_name_inv els d ls : stored_ok ls → name_inv (boot els d ls).
Proof.
  intros Hok. destruct (boot_name els d ls) as [Hn Hl].
  constructor.
  - rewrite Hn. destruct (items ls !! storageKey) as [v|] eqn:Hv.
    + destruct (truthy (trim v)) eqn:Ht.
      * split; [by apply truthy_true|by apply Hok].
      * split; [done|vm_compute; lia].
    + split; [done|vm_compute; lia].
  - by rewrite Hl.
  - intros _. unfold mirrors_store, persisted. by rewrite Hl.
Qed.

Lemma step_name_inv els st a : name_inv st → name_inv (step els st a).
Proof.
  intros H. destruct a as [ev|ms].
  - apply (step_do_keeps_with els name_inv); [| |done].
    + apply saveName_name_inv.
    + apply replayAnimation_name_inv.
  - unfold step, tick.
    destruct (split_due _ _) as [ready rest].
    assert (H0 : name_inv (set_timers rest (set_clock (clock st + ms) st)))
      by by apply (name_inv_ext st).
    revert H0. generalize (set_timers rest (set_clock (clock st + ms) st)).
    induction ready as [|t l IH]; intros s Hs; [done|].
    simpl. apply IH. destruct (fire_name els s t) as [Hn Hl].
    by apply (name_inv_ext s).
Qed.

Lemma run_name_inv els acts st : name_inv st → name_inv (run els acts st).
Proof.
  revert st. induction acts as [|a acts IH]; intros st H; [done|].
  simpl. by apply IH, step_name_inv.
Qed.

(** C4 (amended).  Start from a store whose value under the key is absent,
    or at most 20 code units long once trimmed.  Then after [init] and any
    sequence of user events and turns of the event loop,
    [state.currentName] is non-empty and at most 20 code units long; and
    while the store accepts writes it equals what the store holds, trimmed
    (the default "Lovie" if the store holds nothing, or only blanks). *)
Theorem currentName_invariant els d ls acts :
  stored_ok ls →
  let st := run els acts (boot els d ls) in
  name_ok (currentName st) ∧
  (writable (localStorage st) = true → mirrors_store st).
Proof.
  intros Hok st.
  destruct (run_name_inv els acts (boot els d ls)) as [H1 _ H3];
    [by apply boot_name_inv|]. by split.
Qed.

Lemma currentName_invariant_witness :
  let st := run page
              [Do click_changeNameBtn; Do (input (js "  Alex  "));
               Do click_saveNameBtn; Wait 150]
              (boot page markup (storage_with (js "Sam"))) in
  name_ok (currentName st) ∧ mirrors_store st.
Proof.
  destruct (currentName_invariant page markup (storage_with (js "Sam"))
              [Do click_changeNameBtn; Do (input (js "  Alex  "));
               Do click_saveNameBtn; Wait 150]) as [H1 H2].
  - intros v. change (items (storage_with (js "Sam")) !! storageKey)
      with (Some (js "Sam")). intros [= <-]. vm_compute. lia.
  - split; [exact H1|]. apply H2. reflexivity.
Defined.

(** C4 as the specification states it fails in three reachable states.
    After startup on an empty store the name is the default and nothing is
    persisted.  After startup on a store holding " Sam " the name is "Sam".
    With "Sam" stored and a store that refuses writes, saving "Alex" leaves
    "Alex" in [state.currentName] and "Sam" in the store.  In each of them
    the name is not the persisted value. *)
Lemma currentName_need_not_mirror_store :
  let st1 := boot page markup empty_storage in
  let st2 := boot page markup (storage_with (js " Sam ")) in
  let st3 := run page
               [Do click_changeNameBtn; Do (input (js "Alex"));
                Do (keypress (js "Enter"))]
               (boot page markup (MkStorage {[ storageKey := js "Sam" ]} false)) in
  (reachable page st1 ∧ currentName st1 = js "Lovie" ∧ persisted st1 = None) ∧
  (reachable page st2 ∧ currentName st2 = js "Sam" ∧
   persisted st2 = Some (js " Sam ")) ∧
  (reachable page st3 ∧ currentName st3 = js "Alex" ∧
   persisted st3 = Some (js "Sam")) ∧
  ¬ name_mirrors_persisted st1 ∧
  ¬ name_mirrors_persisted st2 ∧
  ¬ name_mirrors_persisted st3 ∧
  ¬ (∀ els st, reachable els st → name_mirrors_persisted st).
Proof.
  intros st1 st2 st3.
  assert (R1 : reachable page st1) by apply reach_boot.
  assert (R2 : reachable page st2) by apply reach_boot.
  assert (R3 : reachable page st3) by apply reachable_run, reach_boot.
  assert (N1 : ¬ name_mirrors_persisted st1) by (intros [_ Hp]; discriminate Hp).
  assert (N2 : ¬ name_mirrors_persisted st2) by (intros [_ Hp]; discriminate Hp).
  assert (N3 : ¬ name_mirrors_persisted st3) by (intros [_ Hp]; discriminate Hp).
  repeat split; try done. intros H. exact (N1 (H page st1 R1)).
Qed.

(** A stored name longer than 20 code units is adopted as it is: the length
    check of [saveName] has no counterpart in [loadSavedName]. *)
Lemma loadSavedName_keeps_long_name :
  let v := js "A very very long name indeed" in
  currentName (boot page markup (storage_with v)) = v ∧ length v = 28%nat.
Proof. split; reflexivity. Qed.

(** ** The replay cooldown *)

Lemma count_done_elem t q :
  t ∈ q → is_done t = true → (1 ≤ count_done q)%nat.
Proof.
  induction 1 as [t q|t u q _ IH]; simpl; intros Hd.
  - rewrite Hd. lia.
  - specialize (IH Hd). lia.
Qed.

Lemma count_done_zero q :
  count_done q = 0%nat → Forall (λ t, is_done t = false) q.
Proof.
  induction q as [|t q IH]; simpl; intros H; [constructor|].
  destruct (is_done t) eqn:E; [lia|]. constructor; [done|]. apply IH. lia.
Qed.

(** Time only moves in [tick], and node identities are never reused. *)
Lemma fire_clock els st t :
  clock (fire els st t) = clock st ∧
  (next_node st ≤ next_node (fire els st t))%nat.
Proof.
  destruct t as [d cb].
  unfold fire, dispatch, run_callback, announceToScreenReader,
    windowErrorListener, body_removeChild. simpl snd.
  destruct cb; open_state st;
    try destruct (elements.playAnimationBtn els);
    try destruct (elements.recipientName els); js_simpl; split; lia.
Qed.

Lemma fold_fire_clock els ready st :
  clock (fold_left (fire els) ready st) = clock st ∧
  (next_node st ≤ next_node (fold_left (fire els) ready st))%nat.
Proof.
  revert st. induction ready as [|t l IH]; intros st; simpl; [done|].
  destruct (IH (fire els st t)) as [-> Hn].
  destruct (fire_clock els st t) as [-> Hn']. split; [done|lia].
Qed.

Lemma tick_clock els ms st : clock (tick els ms st) = clock st + ms.
Proof.
  unfold tick. destruct (split_due _ _) as [ready rest].
  by destruct (fold_fire_clock els ready
                 (set_timers rest (set_clock (clock st + ms) st))) as [-> _].
Qed.

#[export] Instance clock_framed c : Framed (λ st, clock st = c).
Proof. by split. Qed.

#[export] Instance clock_blind c : NameBlind (λ st, clock st = c).
Proof. by split. Qed.

Lemma replayAnimation_clock els c :
  hoare (λ st, clock st = c) (replayAnimation els)
    (λ _ st, clock st = c) (λ st, clock st = c).
Proof.
  intros st H. unfold replayAnimation, announceToScreenReader, reading.
  destruct (isAnimating st || negb (elements.cake els)); [done|].
  open_state st. by destruct (elements.playAnimationBtn els).
Qed.

Lemma step_clock els st a : clock st ≤ clock (step els st a).
Proof.
  destruct a as [ev|ms].
  - rewrite (step_do_keeps els (λ s, clock s = clock st) ev st); [lia| |done].
    apply replayAnimation_clock.
  - simpl. rewrite tick_clock. lia.
Qed.

#[export] Instance cooling_framed T : Framed (cooling T).
Proof.
  split.
  - intros f st Hf [H1 H2 H3]. constructor; simpl; [done| |done].
    by rewrite Hf.
  - intros name st [H1 H2 H3]. constructor; simpl; [done..|].
    apply elem_of_enqueue. by right.
  - intros k text anim cb ms st _ [H1 H2 H3]. constructor; simpl; [done..|].
    apply elem_of_enqueue. by right.
Qed.

#[export] Instance cooling_blind T : NameBlind (cooling T).
Proof. split; intros v st [H1 H2 H3]; by constructor. Qed.

(** While the cooldown runs [replayAnimation] is the no-op of its guard. *)
Lemma replayAnimation_cooling els T :
  hoare (cooling T) (replayAnimation els) (λ _, cooling T) (cooling T).
Proof.
  intros st H. unfold replayAnimation, reading.
  by rewrite (cooling_flag T st H).
Qed.

(** No timer body other than the cooldown's own ends the cooldown. *)
Lemma fire_cooling els T st t :
  is_done t = false → cooling T st → cooling T (fire els st t).
Proof.
  destruct t as [d cb]. unfold is_done, fire. simpl snd. intros Hd H.
  destruct cb as [name| |id|id]; [|done| |].
  - apply (dispatch_keeps (cooling T) (cooling T)); [|done].
    apply (run_callback_label_keeps els (cooling T)).
  - destruct H as [H1 H2 H3].
    unfold dispatch, run_callback, mbind, Js_bind, modify, setTimeout.
    constructor; simpl; [done..|]. apply elem_of_enqueue. by right.
  - apply (dispatch_keeps (cooling T) (cooling T)); [|done].
    apply (run_callback_remove_keeps els (cooling T)).
Qed.

(** A turn of the event loop that stops short of [T] leaves the cooldown
    running. *)
Lemma tick_cooling els T ms st :
  queue_wf [] st → cooling T st → clock st + ms < T →
  cooling T (tick els ms st).
Proof.
  intros [_ _ Hd] [H1 H2 H3] Hms. simpl in Hd. rewrite H1 in Hd.
  unfold tick. simpl.
  destruct (split_due (clock st + ms) (timers st)) as [ready rest] eqn:Hsplit.
  destruct (split_due_spec _ _ _ _ Hsplit) as [Hq Hready].
  rewrite Hq in H3, Hd. rewrite count_done_app in Hd.
  apply elem_of_app in H3 as [H3|H3].
  { rewrite Forall_forall in Hready. specialize (Hready _ H3). simpl in *. lia. }
  pose proof (count_done_elem _ _ H3 eq_refl) as Hone.
  assert (Hnone : Forall (λ t, is_done t = false) ready)
    by (apply count_done_zero; lia).
  assert (H0 : cooling T (set_timers rest (set_clock (clock st + ms) st)))
    by by constructor.
  revert H0. generalize (set_timers rest (set_clock (clock st + ms) st)).
  clear -Hnone. induction Hnone as [|t l Ht _ IH]; intros s Hs; [done|].
  simpl. by apply IH, fire_cooling.
Qed.

Lemma fire_done_cooled els st d :
  elements.playAnimationBtn els = true →
  cooled (next_node st) (fire els st (d, AnimationDone)).
Proof.
  intros Hb. unfold fire, dispatch, run_callback, announceToScreenReader.
  simpl snd. rewrite Hb. open_state st.
  constructor; js_simpl; [done..|].
  eexists. split; [apply elem_of_app; right; by apply list_elem_of_singleton|].
  done.
Qed.

Lemma fire_cooled els id st t :
  is_done t = false → spares id t →
  cooled id st → cooled id (fire els st t).
Proof.
  destruct t as [d cb]. unfold is_done, spares, fire. simpl snd.
  intros Hd Hs [H1 H2 (n & Hn & Hid & Hk & Ht)].
  unfold dispatch, run_callback, windowErrorListener, body_removeChild.
  destruct cb as [name| |i|i]; [|done| |]; open_state st.
  - destruct (elements.recipientName els); js_simpl;
      (constructor; js_simpl; [done..|]); exists n; split; try done.
    apply elem_of_app. by left.
  - constructor; js_simpl; [done..|].
    eexists. split; [eapply list_elem_of_fmap_2'; [exact Hn|reflexivity]|].
    simpl. by destruct (bool_decide (node_id n = i)).
  - constructor; js_simpl; [done..|]. exists n. split; [|done].
    apply list_elem_of_filter. split; [congruence|done].
Qed.

Lemma fold_fire_cooled els id ready st :
  Forall (λ t, is_done t = false ∧ spares id t) ready →
  cooled id st → cooled id (fold_left (fire els) ready st).
Proof.
  intros H. revert st. induction H as [|t l [Hd Hs] _ IH]; intros st Hc;
    [done|].
  simpl. by apply IH, fire_cooled.
Qed.

(** The first turn of the event loop that reaches [T] ends the cooldown. *)
Lemma tick_cooled els T ms st :
  elements.playAnimationBtn els = true →
  queue_wf [] st → cooling T st → T ≤ clock st + ms →
  isAnimating (tick els ms st) = false ∧
  playAnimationBtn_disabled (document (tick els ms st)) = false ∧
  announced (js "Cake animation completed") (tick els ms st).
Proof.
  intros Hb [Hs Hok Hd] [H1 H2 H3] Hms. simpl in Hd, Hok. rewrite H1 in Hd.
  unfold tick. simpl.
  destruct (split_due (clock st + ms) (timers st)) as [ready rest] eqn:Hsplit.
  destruct (split_due_spec _ _ _ _ Hsplit) as [Hq Hready].
  pose proof (split_due_rest _ _ _ _ Hs Hsplit) as Hrest.
  rewrite Hq in H3, Hd, Hok.
  apply elem_of_app in H3 as [H3|H3].
  2:{ rewrite Forall_forall in Hrest. specialize (Hrest _ H3). simpl in *. lia. }
  apply list_elem_of_split in H3 as (r1 & r2 & ->).
  rewrite !count_done_app in Hd. simpl in Hd.
  apply Forall_app in Hok as [Hok _].
  apply Forall_app in Hok as [_ Hok]. inversion Hok as [|? ? _ Hok2]; subst.
  set (s0 := set_timers rest (set_clock (clock st + ms) st)).
  rewrite fold_left_app. simpl.
  set (s1 := fold_left (fire els) r1 s0).
  assert (Hnext : (next_node st ≤ next_node s1)%nat).
  { by destruct (fold_fire_clock els r1 s0) as [_ Hn]. }
  assert (Hc : cooled (next_node s1)
                 (fold_left (fire els) r2 (fire els s1 (T, AnimationDone)))).
  { apply fold_fire_cooled; [|by apply fire_done_cooled].
    assert (Hnone : Forall (λ t, is_done t = false) r2)
      by (apply count_done_zero; lia).
    rewrite Forall_forall in Hnone, Hok2. apply Forall_forall.
    intros [d cb] Ht. split; [by apply Hnone|].
    specialize (Hok2 _ Ht). unfold timer_ok, spares in *. simpl in *.
    destruct cb; try done; lia. }
  destruct Hc as [Hc1 Hc2 (n & Hn & _ & Hk & Ht)].
  split; [done|]. split; [done|]. by exists n.
Qed.

(** The state of the cooldown along a session. *)
Lemma run_cooling els T acts st :
  queue_wf [] st → (clock st < T → cooling T st) →
  queue_wf [] (run els acts st) ∧
  (clock (run els acts st) < T → cooling T (run els acts st)).
Proof.
  revert st. induction acts as [|a acts IH]; intros st Hwf Hc; [done|].
  simpl. apply IH; [by apply step_wf|].
  intros Hlt. pose proof (step_clock els st a) as Hmono.
  assert (Hcool : cooling T st) by (apply Hc; lia).
  destruct a as [ev|ms].
  - apply (step_do_keeps els (cooling T)); [|done].
    apply replayAnimation_cooling.
  - simpl in *. rewrite tick_clock in Hlt. by apply tick_cooling.
Qed.

(** C7.  In a reachable state with the flag clear, on a page with the cake
    and the replay button, [replayAnimation] sets [state.isAnimating] and
    disables the button.  Whatever the user does and however the event loop
    turns afterwards, as long as the clock is short of trigger time + 4000
    the flag is still set and the button still disabled; and the first
    turn of the event loop that reaches trigger time + 4000 leaves the flag
    clear, the button enabled and "Cake animation completed" announced. *)
Theorem replay_cooldown els st acts :
  reachable els st →
  elements.cake els = true →
  elements.playAnimationBtn els = true →
  isAnimating st = false →
  let T := clock st + 4000 in
  let st1 := dispatch (replayAnimation els) st in
  let st2 := run els acts st1 in
  isAnimating st1 = true ∧
  playAnimationBtn_disabled (document st1) = true ∧
  (clock st2 < T →
   isAnimating st2 = true ∧
   playAnimationBtn_disabled (document st2) = true ∧
   ∀ ms, T ≤ clock st2 + ms →
     isAnimating (tick els ms st2) = false ∧
     playAnimationBtn_disabled (document (tick els ms st2)) = false ∧
     announced (js "Cake animation completed") (tick els ms st2)).
Proof.
  intros Hreach Hcake Hb Ha T st1 st2.
  assert (Hwf1 : queue_wf [] st1).
  { apply (dispatch_keeps (queue_wf []) (queue_wf []));
      [apply replayAnimation_wf | by apply (reachable_wf els)]. }
  assert (Hcool1 : cooling T st1).
  { subst st1 T. unfold dispatch, replayAnimation, announceToScreenReader,
      reading. rewrite Ha, Hcake, Hb. open_state st.
    constructor; js_simpl; [done..|].
    apply elem_of_enqueue. right. apply elem_of_enqueue. by left. }
  destruct (run_cooling els T acts st1 Hwf1 (λ _, Hcool1)) as [Hwf2 Hcool2].
  split; [by destruct Hcool1|]. split; [by destruct Hcool1|].
  intros Hlt. specialize (Hcool2 Hlt).
  split; [by destruct Hcool2|]. split; [by destruct Hcool2|].
  intros ms Hms. by apply (tick_cooled els T).
Qed.

(** Replay on the fresh page, then a click on the (disabled) button, the
    shortcut, and 3999 ms: still cooling down; one more millisecond ends
    it. *)
Lemma replay_cooldown_witness :
  let st2 := run page
               [Do click_playAnimationBtn; Do (keydown (js "r") true false);
                Wait 3999]
               (dispatch (replayAnimation page)
                  (boot page markup empty_storage)) in
  isAnimating st2 = true ∧
  isAnimating (tick page 1 st2) = false ∧
  playAnimationBtn_disabled (document (tick page 1 st2)) = false.
Proof.
  destruct (replay_cooldown page (boot page markup empty_storage)
              [Do click_playAnimationBtn; Do (keydown (js "r") true false);
               Wait 3999])
    as (_ & _ & H); [apply reach_boot | reflexivity..|].
  destruct H as (H1 & _ & H2); [reflexivity|].
  destruct (H2 1) as (H3 & H4 & _); [vm_compute; discriminate|].
  split; [exact H1|]. split; [exact H3 | exact H4].
Defined.

(** * Further properties of the script *)

(** ** What changes the name *)

#[export] Instance name_is_framed n ls : Framed (name_is n ls).
Proof. by split. Qed.

Lemma replayAnimation_name_is els n ls :
  hoare (name_is n ls) (replayAnimation els) (λ _, name_is n ls) (name_is n ls).
Proof.
  intros st [Hn Hl]. destruct (replayAnimation_name els st) as [Hn' Hl'].
  destruct (replayAnimation els st) as [[[]|e] st']; simpl in *;
    split; congruence.
Qed.

Lemma tick_name els ms st :
  currentName (tick els ms st) = currentName st ∧
  localStorage (tick els ms st) = localStorage st.
Proof.
  unfold tick. destruct (split_due _ _) as [ready rest].
  change (currentName st)
    with (currentName (set_timers rest (set_clock (clock st + ms) st))).
  change (localStorage st)
    with (localStorage (set_timers rest (set_clock (clock st + ms) st))).
  generalize (set_timers rest (set_clock (clock st + ms) st)).
  induction ready as [|t l IH]; intros s; [done|].
  simpl. destruct (IH (fire els s t)) as [-> ->]. apply fire_name.
Qed.

(** X1.  Nothing but a save changes [state.currentName] or the store:
    opening and closing the dialog, typing in the draft field, the keyboard
    shortcuts, replaying the animation, moving focus and every timer leave
    both as they were. *)
Theorem only_a_save_changes_the_name els st a :
  saves a = false →
  currentName (step els st a) = currentName st ∧
  localStorage (step els st a) = localStorage st.
Proof.
  intros Ha. destruct a as [ev|ms]; [|apply tick_name].
  change (name_is (currentName st) (localStorage st) (step els st (Do ev))).
  apply (dispatch_keeps _ (name_is (currentName st) (localStorage st)));
    [|done].
  set (I := name_is (currentName st) (localStorage st)).
  destruct ev; try discriminate Ha; simpl in Ha;
    unfold listener, handleKeyboardNavigation; rewrite ?Ha, ?andb_false_r;
    framed;
    first [ apply openModal_keeps | apply closeModal_keeps
          | apply validateInput_keeps | apply replayAnimation_name_is ];
    typeclasses eauto.
Qed.

(** Typing a new name and cancelling discards it. *)
Lemma only_a_save_changes_the_name_witness :
  let st := step page (editing page (storage_with (js "Sam")) (js "Alex"))
              (Do click_cancelBtn) in
  currentName st = js "Sam" ∧ persisted st = Some (js "Sam").
Proof.
  destruct (only_a_save_changes_the_name page
              (editing page (storage_with (js "Sam")) (js "Alex"))
              (Do click_cancelBtn) eq_refl) as [Hn Hl].
  unfold persisted. rewrite Hn, Hl. split; reflexivity.
Defined.

(** ** Live validation and the save button *)

(** The state after an edit of the draft field. *)
Lemma input_step els st s :
  elements.nameInput els = true →
  elements.saveNameBtn els = true →
  ∃ st1,
    step els st (Do (input s)) = st1 ∧
    saveNameBtn_disabled (document st1) =
      negb (truthy (trim s) && (length s <=? 20)%nat) ∧
    nameInput_value (document st1) = s ∧
    currentName st1 = currentName st ∧
    localStorage st1 = localStorage st ∧
    nameModal_active (document st1) = nameModal_active (document st).
Proof.
  intros Hi Hs.
  destruct (validateInput_button els
              (with_document (set_nameInput_selected false)
                 (with_document (set_nameInput_value s) st)) Hi Hs)
    as (st1 & Hrun & Hdis & Hval & Hname & Hls & Hm).
  exists st1. split.
  { unfold step, dispatch, listener. rewrite Hi.
    unfold mbind, Js_bind, modify at 1 2. by rewrite Hrun. }
  rewrite Hdis, Hval, Hname, Hls, Hm. by destruct st as [? ? []].
Qed.

(** X2.  The live validation is sound: whenever an edit leaves the save
    button enabled, a click on it stores the trimmed draft and makes it the
    current name (on a store that accepts the write). *)
Theorem enabled_button_saves els st s :
  elements.nameInput els = true →
  elements.saveNameBtn els = true →
  writable (localStorage st) = true →
  let st1 := step els st (Do (input s)) in
  let st2 := step els st1 (Do click_saveNameBtn) in
  saveNameBtn_disabled (document st1) = false →
  validateDraft s = Valid ∧
  currentName st2 = trim s ∧
  persisted st2 = Some (trim s).
Proof.
  intros Hi Hs Hw st1 st2 Hen.
  destruct (input_step els st s Hi Hs)
    as (st1' & Hst1 & Hdis & Hval & _ & Hls & _).
  fold st1 in Hst1. subst st1'. rewrite Hdis in Hen.
  apply negb_false_iff, andb_true_iff in Hen as [Ht Hlen].
  apply truthy_true in Ht. apply Nat.leb_le in Hlen.
  pose proof (trim_length s) as Htl.
  assert (Hlen' : (length (trim s) ≤ 20)%nat) by lia.
  split; [by apply validateDraft_Valid|].
  destruct (saveName_accepts els st1 (trim s) Hi)
    as (st2' & Hrun & Hn & Hit & _); [by rewrite Hval|done..| |].
  { by rewrite Hls. }
  assert (Hst2 : st2 = st2').
  { unfold st2, step, dispatch, listener, when_st, reading.
    rewrite Hs, Hdis.
    apply truthy_true in Ht. apply Nat.leb_le in Hlen. rewrite Ht, Hlen.
    simpl. by rewrite Hrun. }
  rewrite Hst2. split; [done|].
  unfold persisted. rewrite Hit. apply lookup_insert_eq.
Qed.

Lemma enabled_button_saves_witness :
  let st1 := step page (boot page markup empty_storage)
               (Do (input (js " Alex "))) in
  let st2 := step page st1 (Do click_saveNameBtn) in
  currentName st2 = js "Alex" ∧ persisted st2 = Some (js "Alex").
Proof.
  destruct (enabled_button_saves page (boot page markup empty_storage)
              (js " Alex ")) as (_ & H1 & H2); [reflexivity..|].
  split; [exact H1 | exact H2].
Defined.

(** X3.  Emptying the draft field does not clear an error.  After a draft
    longer than 20 code units has brought up the too-long message, an edit
    that leaves the field blank (and at most 20 long) keeps the save button
    disabled and leaves the red border and the message where they were:
    [validateInput] clears them only on a valid draft. *)
Theorem blank_draft_keeps_error els st s s' :
  elements.nameInput els = true →
  elements.saveNameBtn els = true →
  (20 < length s)%nat →
  trim s' = [] →
  (length s' ≤ 20)%nat →
  let st1 := step els st (Do (input s)) in
  let st2 := step els st1 (Do (input s')) in
  saveNameBtn_disabled (document st2) = true ∧
  nameInput_borderColor (document st2) = js "var(--error-500)" ∧
  nameInput_parentNode (document st2) =
    (λ errs, tail errs ++ [js "Name must be 20 characters or less"])
      <$> nameInput_parentNode (document st) ∧
  body_children (document st2) = body_children (document st1).
Proof.
  intros Hi Hs Hlen Ht Hlen' st1 st2. subst st1 st2.
  assert (H1 : (length s <=? 20)%nat = false) by (apply Nat.leb_gt; lia).
  assert (H2 : (20 <? length s)%nat = true) by (by apply Nat.ltb_lt).
  assert (H3 : (20 <? length s')%nat = false) by (apply Nat.ltb_ge; lia).
  unfold step, dispatch, listener, validateInput, showInputError,
    announceToScreenReader.
  rewrite Hi, Hs. open_state st. rewrite H1, H2.
  destruct (truthy (trim s)); js_simpl; rewrite Ht, H3; js_simpl;
    repeat split; by destruct st_parent.
Qed.

(** A draft of 21 letters is typed, then the field is emptied: the
    too-long message is still under the field. *)
Lemma blank_draft_keeps_error_witness :
  let st2 := run page
               [Do (input (js "abcdefghijklmnopqrstu")); Do (input [])]
               (boot page markup empty_storage) in
  saveNameBtn_disabled (document st2) = true ∧
  nameInput_parentNode (document st2) =
    Some [js "Name must be 20 characters or less"].
Proof.
  destruct (blank_draft_keeps_error page (boot page markup empty_storage)
              (js "abcdefghijklmnopqrstu") [])
    as (H1 & _ & H2 & _);
    [reflexivity | reflexivity | vm_compute; lia | reflexivity
    | vm_compute; lia |].
  split; [exact H1 | exact H2].
Defined.

(** X4.  Reopening the dialog does not re-validate.  After a too-long draft
    has disabled the save button, cancelling and opening the dialog again
    assigns [state.currentName] to the draft field (which holds it as the
    control stores it) and shows the dialog, but the button is still
    disabled and the too-long message still shown, and a click on the button
    does nothing: only the next edit runs [validateInput]. *)
Theorem reopen_keeps_validation_state els st s :
  elements.nameInput els = true →
  elements.saveNameBtn els = true →
  elements.nameModal els = true →
  elements.cancelBtn els = true →
  elements.changeNameBtn els = true →
  (20 < length s)%nat →
  let st3 := run els
               [Do (input s); Do click_cancelBtn; Do click_changeNameBtn] st in
  nameModal_active (document st3) = true ∧
  nameInput_value (document st3) =
    nameInput_value_setter els (currentName st) ∧
  saveNameBtn_disabled (document st3) = true ∧
  nameInput_parentNode (document st3) =
    (λ errs, tail errs ++ [js "Name must be 20 characters or less"])
      <$> nameInput_parentNode (document st) ∧
  step els st3 (Do click_saveNameBtn) = st3.
Proof.
  intros Hi Hs Hm Hc Hb Hlen st3. subst st3.
  assert (H1 : (length s <=? 20)%nat = false) by (apply Nat.leb_gt; lia).
  assert (H2 : (20 <? length s)%nat = true) by (by apply Nat.ltb_lt).
  unfold run, fold_left, step, dispatch, listener, when_st, reading,
    validateInput, showInputError, closeModal, openModal,
    announceToScreenReader.
  rewrite Hi, Hs, Hm, Hc, Hb. open_state st. rewrite H1, H2.
  destruct (truthy (trim s)); js_simpl; repeat split; by destruct st_parent.
Qed.

Lemma reopen_keeps_validation_state_witness :
  let st3 := run page
               [Do (input (js "abcdefghijklmnopqrstu")); Do click_cancelBtn;
                Do click_changeNameBtn]
               (boot page markup empty_storage) in
  nameInput_value (document st3) = js "Lovie" ∧
  saveNameBtn_disabled (document st3) = true.
Proof.
  destruct (reopen_keeps_validation_state page
              (boot page markup empty_storage) (js "abcdefghijklmnopqrstu"))
    as (_ & H1 & H2 & _); [reflexivity..| vm_compute; lia |].
  vm_compute in H1. vm_compute. split; [exact H1 | exact H2].
Defined.

(** ** Keyboard *)

(** ** Startup on a page without the message section *)

(** X6.  [init] reads [elements.messageSection.querySelector] without a
    guard.  On a page without the message section it throws a TypeError
    after [loadSavedName] has run: the saved name is loaded all the same,
    the card gets no celebration class, and the fault surfaces as the
    generic error banner. *)
Theorem init_without_message_section els d ls :
  elements.messageSection els = false →
  fst (init els (fresh d ls)) = Throw TypeError ∧
  currentName (boot els d ls) =
    match items ls !! storageKey with
    | Some v => if truthy (trim v) then trim v else js "Lovie"
    | None => js "Lovie"
    end ∧
  messageCard_celebration (document (boot els d ls)) =
    messageCard_celebration d ∧
  ∃ banner,
    banner ∈ body_children (document (boot els d ls)) ∧
    node_kind banner = ErrorNotification ∧
    node_text banner = js "Something went wrong. Please refresh the page.".
Proof.
  intros Hm.
  unfold boot, fresh, dispatch, init, loadSavedName, updateDisplayedName,
    windowErrorListener.
  rewrite Hm. destruct d, ls as [its wr]. js_simpl.
  destruct (its !! storageKey) as [v|]; js_simpl.
  - assert (Hb : (if truthy v then truthy (trim v) else false)
                 = truthy (trim v)) by by destruct v.
    rewrite Hb.
    destruct (truthy (trim v)), (elements.recipientName els); js_simpl;
      repeat (split; [reflexivity|]); eexists;
      (split; [apply elem_of_app; right; by apply list_elem_of_singleton|]);
      done.
  - repeat (split; [reflexivity|]). eexists.
    split; [apply elem_of_app; right; by apply list_elem_of_singleton|]. done.
Qed.

Lemma init_without_message_section_witness :
  let els := elements.mk true true true true true true true true false false
               true false in
  currentName (boot els markup (storage_with (js "Sam"))) = js "Sam" ∧
  length (body_children (document (boot els markup (storage_with (js "Sam")))))
    = 1%nat.
Proof.
  destruct (init_without_message_section
              (elements.mk true true true true true true true true false false
                 true false) markup (storage_with (js "Sam")) eq_refl)
    as (_ & H & _).
  split; [exact H | reflexivity].
Defined.

(** ** Invariants of a session *)

(** An assertion kept by every listener, by every timer body and by the
    bookkeeping of a turn of the event loop holds along the whole session. *)
Lemma session_invariant els (I : State → Prop) :
  (∀ st ev, I st → I (step els st (Do ev))) →
  (∀ st t, I st → I (fire els st t)) →
  (∀ st q c, I st → I (set_timers q (set_clock c st))) →
  ∀ acts st, I st → I (run els acts st).
Proof.
  intros Hdo Hfire Htime acts.
  induction acts as [|a acts IH]; intros st H; [done|].
  simpl. apply IH. destruct a as [ev|ms]; [by apply Hdo|].
  unfold step, tick. destruct (split_due _ _) as [ready rest].
  specialize (Htime st rest (clock st + ms) H). revert Htime.
  generalize (set_timers rest (set_clock (clock st + ms) st)).
  induction ready as [|t l IHl]; intros s Hs; [done|].
  simpl. by apply IHl, Hfire.
Qed.

(** Runs every handler of the script on an opened state, one case per path
    through its guards. *)
Ltac run_script :=
  unfold step, fire, boot, fresh, dispatch, listener, init,
    handleKeyboardNavigation, when_st, reading, run_callback, saveName,
    validateInput, showInputError, clearInputError, openModal, closeModal,
    replayAnimation, loadSavedName, updateDisplayedName, showSuccessMessage,
    announceToScreenReader, windowErrorListener, str_eqb in *.

Ltac plain_scrutinee b :=
  lazymatch b with
  | context [if _ then _ else _] => fail
  | context [match _ with Some _ => _ | None => _ end] => fail
  | _ => idtac
  end.

Ltac crunch :=
  js_simpl;
  repeat (match goal with
          | |- context [if ?b then _ else _] =>
              plain_scrutinee b; destruct b eqn:?
          | |- context [match ?o with Some _ => _ | None => _ end] =>
              plain_scrutinee o; destruct o eqn:?
          end; js_simpl).

(** Closes the cases left by [crunch]. *)
Ltac settle :=
  intros; simpl in *; simplify_eq; simpl in *;
  first [done | lia | by repeat split].

Lemma step_scroll_locked els st ev :
  scroll_locked st → scroll_locked (step els st (Do ev)).
Proof.
  unfold scroll_locked. destruct ev; run_script; open_state st; crunch;
    settle.
Qed.

Lemma fire_scroll_locked els st t :
  scroll_locked st → scroll_locked (fire els st t).
Proof.
  unfold scroll_locked. destruct t as [due []]; run_script; simpl snd;
    open_state st; crunch; settle.
Qed.

Lemma init_scroll_locked els d ls :
  scroll_locked (fresh d ls) → scroll_locked (boot els d ls).
Proof.
  unfold scroll_locked. run_script. destruct d, ls. crunch; settle.
Qed.

(** X7.  Background scroll is suspended exactly while the dialog is shown:
    on a page served with the two in agreement,
    [document.body.style.overflow] is 'hidden' when the dialog has the
    'active' class and empty when it has not, in every state of every
    session. *)
Theorem scroll_lock_follows_dialog els d ls acts :
  body_overflow d = (if nameModal_active d then js "hidden" else []) →
  let st := run els acts (boot els d ls) in
  body_overflow (document st) =
    if nameModal_active (document st) then js "hidden" else [].
Proof.
  intros Hd st.
  apply (session_invariant els scroll_locked).
  - intros s ev. apply step_scroll_locked.
  - intros s t. apply fire_scroll_locked.
  - done.
  - by apply init_scroll_locked.
Qed.

Lemma scroll_lock_follows_dialog_witness :
  let st := run page
              [Do click_changeNameBtn; Do (input (js "Alex"));
               Do (keypress (js "Enter")); Wait 150;
               Do (keydown (js "e") true false)]
              (boot page markup empty_storage) in
  nameModal_active (document st) = true ∧
  body_overflow (document st) = js "hidden".
Proof.
  pose proof (scroll_lock_follows_dialog page markup empty_storage
                [Do click_changeNameBtn; Do (input (js "Alex"));
                 Do (keypress (js "Enter")); Wait 150;
                 Do (keydown (js "e") true false)] eq_refl) as H.
  vm_compute in H. vm_compute. split; [reflexivity | exact H].
Defined.

Lemma step_one_error els st ev : one_error st → one_error (step els st (Do ev)).
Proof.
  unfold one_error. destruct ev; run_script; open_state st; crunch;
    try destruct st_parent as [[|? [|? ?]]|]; settle.
Qed.

Lemma fire_one_error els st t : one_error st → one_error (fire els st t).
Proof.
  unfold one_error. destruct t as [due []]; run_script; simpl snd;
    open_state st; crunch; settle.
Qed.

Lemma init_one_error els d ls :
  one_error (fresh d ls) → one_error (boot els d ls).
Proof.
  unfold one_error. run_script. destruct d, ls. crunch; settle.
Qed.

(** X8.  Inline errors never stack: on a page served with at most one
    [.error-message] under the draft field's parent there is at most one in
    every state of every session ([showInputError] removes the one it finds
    before it adds its own). *)
Theorem error_messages_never_stack els d ls acts :
  one_error (fresh d ls) → one_error (run els acts (boot els d ls)).
Proof.
  intros Hd. apply (session_invariant els one_error).
  - intros s ev. apply step_one_error.
  - intros s t. apply fire_one_error.
  - done.
  - by apply init_one_error.
Qed.

Lemma error_messages_never_stack_witness :
  let st := run page
              [Do click_changeNameBtn; Do (input (js "abcdefghijklmnopqrstu"));
               Do (input (js "abcdefghijklmnopqrstuv"));
               Do (input []); Do (keypress (js "Enter"))]
              (boot page markup empty_storage) in
  nameInput_parentNode (document st) = Some [js "Please enter a valid name"] ∧
  one_error st.
Proof.
  split; [vm_compute; reflexivity|].
  apply (error_messages_never_stack page markup empty_storage).
  unfold one_error. simpl. lia.
Defined.

(** ** The replay button and the flag *)

Lemma step_button_mirrors_flag els st ev :
  elements.playAnimationBtn els = true →
  button_mirrors_flag st → button_mirrors_flag (step els st (Do ev)).
Proof.
  intros Hb. unfold button_mirrors_flag.
  destruct ev; run_script; rewrite ?Hb; open_state st; crunch;
    intros [? ?]; settle.
Qed.

Lemma fire_button_mirrors_flag els st t :
  elements.playAnimationBtn els = true →
  button_mirrors_flag st → button_mirrors_flag (fire els st t).
Proof.
  intros Hb. unfold button_mirrors_flag.
  destruct t as [due []]; run_script; simpl snd; rewrite ?Hb; open_state st;
    crunch; intros [? ?]; settle.
Qed.

Lemma init_button_mirrors_flag els d ls :
  button_mirrors_flag (fresh d ls) → button_mirrors_flag (boot els d ls).
Proof.
  unfold button_mirrors_flag. run_script. destruct d, ls. crunch;
    intros [? ?]; settle.
Qed.

Lemma run_button_mirrors_flag els d ls acts :
  elements.playAnimationBtn els = true →
  playAnimationBtn_disabled d = false →
  playAnimationBtn_loading d = false →
  button_mirrors_flag (run els acts (boot els d ls)).
Proof.
  intros Hb Hd Hl. apply (session_invariant els button_mirrors_flag).
  - intros s ev. by apply step_button_mirrors_flag.
  - intros s t. by apply fire_button_mirrors_flag.
  - done.
  - by apply init_button_mirrors_flag.
Qed.

(** X9.  On a page with the replay button, served enabled, the button is
    disabled and carries the 'loading' class exactly while
    [state.isAnimating] is set, in every state of every session. *)
Theorem replay_button_mirrors_flag els d ls acts :
  elements.playAnimationBtn els = true →
  playAnimationBtn_disabled d = false →
  playAnimationBtn_loading d = false →
  let st := run els acts (boot els d ls) in
  playAnimationBtn_disabled (document st) = isAnimating st ∧
  playAnimationBtn_loading (document st) = isAnimating st.
Proof.
  intros Hb Hd Hl st.
  destruct (run_button_mirrors_flag els d ls acts Hb Hd Hl) as [H1 H2].
  by split.
Qed.

Lemma replay_button_mirrors_flag_witness :
  let st := run page [Do click_playAnimationBtn; Wait 3999]
              (boot page markup empty_storage) in
  playAnimationBtn_disabled (document st) = true ∧ isAnimating st = true.
Proof.
  destruct (replay_button_mirrors_flag page markup empty_storage
              [Do click_playAnimationBtn; Wait 3999])
    as [H _]; [reflexivity..|].
  vm_compute in H. vm_compute. split; [exact H | reflexivity].
Defined.

(** ** The flag and the cooldown timer *)

(** An assertion over the batch of the current turn and the state, kept by
    every listener between turns, by every timer body on the head of the
    batch and by the split of the queue, holds along the whole session. *)
Lemma session_invariant_queue els (I : list Timer → State → Prop) :
  (∀ st ev, I [] st → I [] (step els st (Do ev))) →
  (∀ st t l, I (t :: l) st → I l (fire els st t)) →
  (∀ st ready rest c,
     timers st = ready ++ rest → I [] st →
     I ready (set_timers rest (set_clock c st))) →
  ∀ acts st, I [] st → I [] (run els acts st).
Proof.
  intros Hdo Hfire Hsplit acts.
  induction acts as [|a acts IH]; intros st H; [done|].
  simpl. apply IH. destruct a as [ev|ms]; [by apply Hdo|].
  unfold step, tick. simpl.
  destruct (split_due (clock st + ms) (timers st)) as [ready rest] eqn:E.
  destruct (split_due_spec _ _ _ _ E) as [Hq _].
  specialize (Hsplit st ready rest (clock st + ms) Hq H). revert Hsplit.
  generalize (set_timers rest (set_clock (clock st + ms) st)).
  clear -Hfire. induction ready as [|t l IHl]; intros s Hs; [done|].
  simpl. by apply IHl, Hfire.
Qed.

#[export] Instance flag_count_framed f l : Framed (flag_count f l).
Proof.
  unfold flag_count. split.
  - done.
  - intros name st H. simpl. rewrite count_done_app, count_done_enqueue.
    rewrite count_done_app in H. simpl. lia.
  - intros k text anim cb ms st Hcb H. simpl.
    rewrite count_done_app, count_done_enqueue.
    rewrite count_done_app in H.
    assert (is_done (clock st + ms, cb (next_node st)) = false) as ->
      by by destruct Hcb as [-> | ->].
    simpl. lia.
Qed.

#[export] Instance flag_count_blind f l : NameBlind (flag_count f l).
Proof. by split. Qed.

(** A timer body other than the cooldown's keeps the count. *)
Lemma fire_flag_count els f t l st :
  is_done t = false →
  flag_count f (t :: l) st → flag_count f l (fire els st t).
Proof.
  destruct t as [due cb]. unfold is_done, fire. simpl snd. intros Hd H.
  assert (H0 : flag_count f l st).
  { unfold flag_count in *. simpl in H. destruct cb; simpl in *; try done. }
  destruct cb as [name| |id|id]; [|done| |].
  - apply (dispatch_keeps (flag_count f l) (flag_count f l)); [|done].
    apply (run_callback_label_keeps els (flag_count f l)).
  - unfold dispatch, run_callback, mbind, Js_bind, modify, setTimeout,
      flag_count in *. simpl.
    rewrite count_done_app, count_done_enqueue.
    rewrite count_done_app in H0. simpl. lia.
  - apply (dispatch_keeps (flag_count f l) (flag_count f l)); [|done].
    apply (run_callback_remove_keeps els (flag_count f l)).
Qed.

Lemma replayAnimation_flag_count els l :
  elements.playAnimationBtn els = true →
  hoare (flag_count (λ b, if b then 1%nat else 0%nat) l)
    (replayAnimation els)
    (λ _, flag_count (λ b, if b then 1%nat else 0%nat) l)
    (flag_count (λ b, if b then 1%nat else 0%nat) l).
Proof.
  intros Hb st H. unfold replayAnimation, reading, announceToScreenReader.
  destruct (isAnimating st || negb (elements.cake els)) eqn:Hg; [done|].
  apply orb_false_iff in Hg as [Ha _]. rewrite Hb.
  unfold flag_count in *. rewrite Ha in H. open_state st.
  rewrite count_done_app in *. rewrite !count_done_enqueue. simpl. lia.
Qed.

Lemma run_flag_count els d ls acts :
  elements.playAnimationBtn els = true →
  flag_count (λ b, if b then 1%nat else 0%nat) []
    (run els acts (boot els d ls)).
Proof.
  intros Hb.
  apply (session_invariant_queue els
           (flag_count (λ b, if b then 1%nat else 0%nat))).
  - intros st ev H. apply (step_do_keeps els _ ev st); [|done].
    by apply replayAnimation_flag_count.
  - intros st [due cb] l H. destruct (is_done (due, cb)) eqn:Hd;
      [|by apply fire_flag_count].
    destruct cb; try discriminate Hd.
    unfold flag_count in *. simpl in H.
    unfold fire, dispatch, run_callback, announceToScreenReader. simpl snd.
    rewrite Hb. open_state st. rewrite count_done_app in *.
    rewrite count_done_enqueue. simpl. destruct st_anim; lia.
  - intros st ready rest c Hq H. unfold flag_count in *. simpl in *.
    by rewrite <- Hq.
  - apply (dispatch_keeps _ (flag_count (λ b, if b then 1%nat else 0%nat) []));
      [apply (init_keeps els _)|]. done.
Qed.

(** X11.  On a page with the replay button [state.isAnimating] is set
    exactly while a cooldown timer is pending, and there is never more than
    one: in every state of every session the number of pending cooldown
    timers is 1 if the flag is set and 0 if it is not. *)
Theorem flag_set_iff_cooldown_pending els d ls acts :
  elements.playAnimationBtn els = true →
  let st := run els acts (boot els d ls) in
  count_done (timers st) = (if isAnimating st then 1 else 0)%nat ∧
  (isAnimating st = true ↔ ∃ due, (due, AnimationDone) ∈ timers st).
Proof.
  intros Hb st. pose proof (run_flag_count els d ls acts Hb) as H.
  unfold flag_count in H. simpl in H. fold st in H. split; [done|].
  split.
  - intros Ha. rewrite Ha in H.
    destruct (decide (Forall (λ t, is_done t = false) (timers st)))
      as [Hall|Hex].
    + exfalso. clear -H Hall. induction Hall as [|t q Ht _ IH];
        simpl in H; [lia|]. rewrite Ht in H. auto.
    + apply not_Forall_Exists in Hex; [|intros t; apply _].
      apply Exists_exists in Hex as ([due cb] & Hin & Hd).
      exists due. destruct cb; try (by destruct Hd); done.
  - intros [due Hin].
    pose proof (count_done_elem _ _ Hin eq_refl) as Hone.
    destruct (isAnimating st); [done|lia].
Qed.

Lemma flag_set_iff_cooldown_pending_witness :
  let st := run page [Do (keydown (js "r") false true); Wait 1000]
              (boot page markup empty_storage) in
  isAnimating st = true ∧ ∃ due, (due, AnimationDone) ∈ timers st.
Proof.
  destruct (flag_set_iff_cooldown_pending page markup empty_storage
              [Do (keydown (js "r") false true); Wait 1000] eq_refl)
    as [_ [H _]].
  assert (Ha : isAnimating
                 (run page [Do (keydown (js "r") false true); Wait 1000]
                    (boot page markup empty_storage)) = true)
    by (vm_compute; reflexivity).
  split; [exact Ha | exact (H Ha)].
Defined.

(** ** Replay on a page without the button *)

#[export] Instance flag_stuck_framed l : Framed (flag_stuck l).
Proof.
  split.
  - intros f st Hf [H1 H2]. split; [done|].
    by apply (framed_document (I := flag_count _ l)).
  - intros name st [H1 H2]. split; [done|].
    by apply (framed_label (I := flag_count _ l)).
  - intros k text anim cb ms st Hcb [H1 H2]. split; [done|].
    by apply (framed_node (I := flag_count _ l)).
Qed.

#[export] Instance flag_stuck_blind l : NameBlind (flag_stuck l).
Proof. by split. Qed.

Lemma replayAnimation_flag_stuck els l :
  hoare (flag_stuck l) (replayAnimation els) (λ _, flag_stuck l) (flag_stuck l).
Proof.
  intros st H. unfold replayAnimation, reading. destruct H as [Ha H].
  rewrite Ha. by split.
Qed.

Lemma fire_flag_stuck els t l st :
  flag_stuck (t :: l) st → flag_stuck l (fire els st t).
Proof.
  intros [Ha H].
  assert (Hd : is_done t = false).
  { unfold flag_count in H. simpl in H. destruct (is_done t); [lia|done]. }
  split; [|by apply fire_flag_count].
  destruct t as [due cb]. unfold is_done in Hd. simpl in Hd.
  unfold fire, dispatch, run_callback, announceToScreenReader,
    windowErrorListener, body_removeChild. simpl snd.
  destruct cb; try discriminate Hd; open_state st;
    try destruct (elements.recipientName els); by js_simpl.
Qed.

(** X12.  [replayAnimation] sets the flag before it touches
    [elements.playAnimationBtn], without a guard.  On a page that has the
    cake but not the button the call throws once the flag is set, no
    cooldown timer is scheduled, and the flag is never cleared: whatever
    follows, [state.isAnimating] stays set and every later replay is the
    no-op of the guard. *)
Theorem replay_without_button_sticks els st acts :
  reachable els st →
  elements.cake els = true →
  elements.playAnimationBtn els = false →
  isAnimating st = false →
  let st' := run els acts (dispatch (replayAnimation els) st) in
  fst (replayAnimation els st) = Throw TypeError ∧
  isAnimating st' = true ∧
  count_done (timers st') = 0%nat ∧
  replayAnimation els st' = (Normal tt, st').
Proof.
  intros Hreach Hc Hb Ha st'.
  assert (Hthrow : fst (replayAnimation els st) = Throw TypeError).
  { unfold replayAnimation, reading. rewrite Ha, Hc, Hb. by open_state st. }
  assert (H1 : flag_stuck [] (dispatch (replayAnimation els) st)).
  { destruct (reachable_wf els st Hreach) as [_ _ Hd]. rewrite Ha in Hd.
    unfold dispatch, replayAnimation, reading, windowErrorListener.
    rewrite Ha, Hc, Hb. unfold flag_stuck, flag_count. open_state st.
    split; [done|]. simpl in *. rewrite count_done_enqueue. simpl. lia. }
  assert (H2 : flag_stuck [] st').
  { apply (session_invariant_queue els flag_stuck); [| | |done].
    - intros s ev H. apply (step_do_keeps els _ ev s); [|done].
      apply replayAnimation_flag_stuck.
    - intros s t l. apply fire_flag_stuck.
    - intros s ready rest c Hq [Hs Hn]. split; [done|].
      unfold flag_count in *. simpl in *. by rewrite <- Hq. }
  destruct H2 as [Hs Hn]. unfold flag_count in Hn. simpl in Hn.
  repeat split; try done.
  unfold replayAnimation, reading. by rewrite Hs.
Qed.

Lemma replay_without_button_sticks_witness :
  let els := elements.mk true true false true true true true true true true
               true false in
  isAnimating
    (run els [Wait 4000; Do (keydown (js "r") true false); Wait 60000]
       (dispatch (replayAnimation els) (boot els markup empty_storage)))
  = true.
Proof.
  destruct (replay_without_button_sticks
              (elements.mk true true false true true true true true true true
                 true false)
              (boot (elements.mk true true false true true true true true
                       true true true false) markup empty_storage)
              [Wait 4000; Do (keydown (js "r") true false); Wait 60000])
    as (_ & H & _); [apply reach_boot | reflexivity..|].
  exact H.
Defined.

(** ** The store *)

#[export] Instance store_kept_framed ls0 : Framed (store_kept ls0).
Proof. by split. Qed.

Lemma store_kept_ext ls0 st st' :
  localStorage st' = localStorage st → store_kept ls0 st → store_kept ls0 st'.
Proof. unfold store_kept, persisted. by intros ->. Qed.

Lemma saveName_store_kept els ls0 :
  hoare (store_kept ls0) (saveName els) (λ _, store_kept ls0) (store_kept ls0).
Proof.
  intros st H.
  destruct (elements.nameInput els) eqn:Hi.
  2:{ unfold saveName. by rewrite Hi. }
  set (n := trim (nameInput_value (document st))).
  destruct (decide (n = [] ∨ (20 < length n)%nat)) as [Hbad|Hgood].
  { rewrite (saveName_refuses els st Hi Hbad).
    by apply (showInputError_keeps els (store_kept ls0) (store_kept ls0) _ st). }
  assert (Hne : n ≠ []) by tauto.
  assert (Hlen : (length n ≤ 20)%nat) by lia.
  destruct (writable (localStorage st)) eqn:Hw.
  - destruct (saveName_accepts els st n Hi eq_refl Hne Hlen Hw)
      as (st' & -> & _ & Hitems & Hw' & _).
    destruct H as (H1 & H2 & H3). split; [congruence|]. split.
    + intros k Hk. rewrite Hitems, lookup_insert_ne; [by apply H2|done].
    + right. exists n. unfold persisted. rewrite Hitems, lookup_insert_eq.
      split; [done|]. split; [by split|apply trim_idemp].
  - destruct (saveName_store_throws els st n Hi eq_refl Hne Hlen Hw)
      as (st' & -> & _ & Hl & _).
    by apply (store_kept_ext ls0 st).
Qed.

Lemma replayAnimation_store_kept els ls0 :
  hoare (store_kept ls0) (replayAnimation els) (λ _, store_kept ls0)
    (store_kept ls0).
Proof.
  intros st H. destruct (replayAnimation_name els st) as [_ Hl].
  destruct (replayAnimation els st) as [[[]|e] st'];
    by apply (store_kept_ext ls0 st).
Qed.

(** X13.  All a session ever does to [localStorage] is [setItem] under the
    one key, with a name that passed [saveName]'s checks.  Whatever the user
    does, every other key holds what it held at startup, and the script's
    key holds either what it held at startup or a non-empty, already
    trimmed string of at most 20 code units. *)
Theorem store_only_gets_valid_names els d ls acts :
  let st := run els acts (boot els d ls) in
  (∀ k, k ≠ storageKey → items (localStorage st) !! k = items ls !! k) ∧
  (persisted st = items ls !! storageKey ∨
   ∃ v, persisted st = Some v ∧ name_ok v ∧ trim v = v).
Proof.
  intros st.
  assert (H : store_kept ls st).
  { apply (session_invariant els (store_kept ls)).
    - intros s ev Hs. apply (step_do_keeps_with els _ ev s); [| |done].
      + apply saveName_store_kept.
      + apply replayAnimation_store_kept.
    - intros s t Hs. destruct (fire_name els s t) as [_ Hl].
      by apply (store_kept_ext ls s).
    - done.
    - destruct (boot_name els d ls) as [_ Hl].
      unfold store_kept, persisted. rewrite Hl.
      split; [done|]. split; [done|]. by left. }
  by destruct H as (_ & H2 & H3).
Qed.

(** ** Reloading the page *)

(** X14.  What a session leaves in the store is what the next page load
    shows.  If the store accepts writes and held nothing longer than 20 code
    units at the start, then after any session a fresh start of the script
    on the resulting store (on any page) begins with the very
    [state.currentName] the session ended with. *)
Theorem reload_restores_the_name els els' d d' ls acts :
  stored_ok ls →
  let st := run els acts (boot els d ls) in
  writable (localStorage st) = true →
  currentName (boot els' d' (localStorage st)) = currentName st.
Proof.
  intros Hok st Hw.
  destruct (run_name_inv els acts (boot els d ls)) as [_ _ Hm];
    [by apply boot_name_inv|].
  specialize (Hm Hw). fold st in Hm.
  destruct (boot_name els' d' (localStorage st)) as [-> _].
  by rewrite Hm.
Qed.

Lemma reload_restores_the_name_witness :
  let st := run page
              [Do click_changeNameBtn; Do (input (js "  Alex  "));
               Do (keypress (js "Enter"))]
              (boot page markup (storage_with (js "Sam"))) in
  currentName st = js "Alex" ∧
  currentName (boot page markup (localStorage st)) = js "Alex".
Proof.
  pose proof (reload_restores_the_name page page markup markup
                (storage_with (js "Sam"))
                [Do click_changeNameBtn; Do (input (js "  Alex  "));
                 Do (keypress (js "Enter"))]) as H.
  cbv zeta in H.
  assert (Hn : currentName
                 (run page
                    [Do click_changeNameBtn; Do (input (js "  Alex  "));
                     Do (keypress (js "Enter"))]
                    (boot page markup (storage_with (js "Sam"))))
               = js "Alex") by (vm_compute; reflexivity).
  split; [exact Hn|]. rewrite <- Hn. apply H.
  - intros v. change (items (storage_with (js "Sam")) !! storageKey)
      with (Some (js "Sam")). intros [= <-]. vm_compute. lia.
  - vm_compute. reflexivity.
Defined.

(** ** The lifetime of announcements and banners *)

(** No timer body brings a removed node back. *)
Lemma fire_node_gone els id st t :
  node_gone id st → node_gone id (fire els st t).
Proof.
  destruct t as [due cb]. unfold node_gone, node_absent.
  unfold fire, dispatch, run_callback, announceToScreenReader,
    windowErrorListener, body_removeChild. simpl snd.
  intros [Habs Hid].
  destruct cb as [name| |i|i]; open_state st;
    try destruct (elements.recipientName els);
    try destruct (elements.playAnimationBtn els); js_simpl;
    (split; [|lia]); intros n Hn;
    rewrite ?elem_of_app, ?list_elem_of_singleton in Hn;
    try (destruct Hn as [Hn| ->]; [by apply Habs|simpl; lia]);
    try by apply Habs.
  all: first
    [ apply list_elem_of_fmap in Hn as (m & -> & Hm);
      specialize (Habs m Hm); by destruct (bool_decide (node_id m = i))
    | apply list_elem_of_filter in Hn as [_ Hn]; by apply Habs ].
Qed.

Lemma fold_fire_node_gone els id ready st :
  node_gone id st → node_gone id (fold_left (fire els) ready st).
Proof.
  revert st. induction ready as [|t l IH]; intros st H; [done|].
  simpl. by apply IH, fire_node_gone.
Qed.

(** The turn of the event loop that reaches a removal timer leaves the node
    out of the document. *)
Lemma tick_removes_node els id due ms st :
  queue_wf [] st → (due, RemoveNode id) ∈ timers st → due ≤ clock st + ms →
  node_gone id (tick els ms st).
Proof.
  intros [Hs Hok _] Hin Hdue. simpl in Hok. unfold tick. simpl.
  destruct (split_due (clock st + ms) (timers st)) as [ready rest] eqn:Hsplit.
  destruct (split_due_spec _ _ _ _ Hsplit) as [Hq _].
  pose proof (split_due_rest _ _ _ _ Hs Hsplit) as Hrest.
  assert (Hid : (id < next_node st)%nat).
  { rewrite Forall_forall in Hok. by apply (Hok _ Hin). }
  rewrite Hq in Hin. apply elem_of_app in Hin as [Hin|Hin].
  2:{ rewrite Forall_forall in Hrest. specialize (Hrest _ Hin).
      simpl in *. lia. }
  apply list_elem_of_split in Hin as (r1 & r2 & ->).
  set (s0 := set_timers rest (set_clock (clock st + ms) st)).
  rewrite fold_left_app. simpl.
  set (s1 := fold_left (fire els) r1 s0).
  assert (Hnext : (next_node st ≤ next_node s1)%nat).
  { by destruct (fold_fire_clock els r1 s0) as [_ Hn]. }
  assert (Hg : node_gone id
                 (fold_left (fire els) r2 (fire els s1 (due, RemoveNode id)))).
  { apply fold_fire_node_gone. clearbody s1. clear -Hnext Hid.
    unfold node_gone, node_absent, fire, dispatch, run_callback,
      body_removeChild. simpl snd.
    open_state s1. js_simpl. simpl in Hnext. split; [|lia]. intros n Hn.
    apply list_elem_of_filter in Hn as [Hn _]. simpl in Hn. congruence. }
  exact Hg.
Qed.

(** X15.  An announcement lives for one second.  In a reachable state
    [announceToScreenReader] puts a screen-reader node with the message in
    the document, and the first turn of the event loop 1000 ms or more
    later leaves no such node behind. *)
Theorem announcement_is_removed els st message ms :
  reachable els st →
  1000 ≤ ms →
  let st' := snd (announceToScreenReader message st) in
  node_present (next_node st) SrAnnouncement message st' ∧
  node_absent (next_node st) (tick els ms st').
Proof.
  intros Hreach Hms st'.
  assert (Hwf : queue_wf [] st').
  { apply (hoare_snd (queue_wf [])); [|by apply (reachable_wf els)].
    apply (announceToScreenReader_keeps (queue_wf [])). }
  split.
  - subst st'. unfold node_present, announceToScreenReader. open_state st.
    eexists. split;
      [apply elem_of_app; right; by apply list_elem_of_singleton|done].
  - apply (tick_removes_node els (next_node st) (clock st + 1000) ms st' Hwf).
    + subst st'. unfold announceToScreenReader. open_state st.
      apply elem_of_enqueue. by left.
    + subst st'. unfold announceToScreenReader. open_state st. lia.
Qed.

Lemma announcement_is_removed_witness :
  let st := boot page markup empty_storage in
  let st' := snd (announceToScreenReader (js "Cake animation started") st) in
  length (body_children (document st')) = 1%nat ∧
  node_absent 0 (tick page 1000 st').
Proof.
  destruct (announcement_is_removed page (boot page markup empty_storage)
              (js "Cake animation started") 1000)
    as [_ H]; [apply reach_boot | vm_compute; discriminate |].
  split; [reflexivity | exact H].
Defined.

(** While banner [id] is fading no timer body turns the success style back
    on or drops the removal timer. *)
Lemma fire_fading els id due st t :
  fading id due st → fading id due (fire els st t).
Proof.
  destruct t as [d cb]. unfold fading.
  unfold fire, dispatch, run_callback, announceToScreenReader,
    windowErrorListener, body_removeChild. simpl snd.
  intros [Hs Hin].
  destruct cb as [name| |i|i]; open_state st;
    try destruct (elements.recipientName els);
    try destruct (elements.playAnimationBtn els); js_simpl;
    (split; [done|]); rewrite ?elem_of_enqueue; auto.
Qed.

Lemma fold_fire_fading els id due ready st :
  fading id due st → fading id due (fold_left (fire els) ready st).
Proof.
  revert st. induction ready as [|t l IH]; intros st H; [done|].
  simpl. by apply IH, fire_fading.
Qed.

(** A timer body that does not remove node [id] leaves it in the document,
    with its kind and text. *)
Lemma fire_node_present els id k text st t :
  leaves_node id t →
  node_present id k text st → node_present id k text (fire els st t).
Proof.
  destruct t as [d cb]. unfold leaves_node, node_present. simpl snd.
  unfold fire, dispatch, run_callback, announceToScreenReader,
    windowErrorListener, body_removeChild. simpl snd.
  intros Hsp (n & Hn & Hid & Hk & Ht).
  destruct cb as [name| |i|i]; open_state st;
    try destruct (elements.recipientName els);
    try destruct (elements.playAnimationBtn els); js_simpl.
  all: first
    [ exists n; split; [|done]; apply list_elem_of_filter;
      split; [simpl in *; congruence|done]
    | eexists; split; [eapply list_elem_of_fmap_2'; [exact Hn|reflexivity]|];
      simpl; by destruct (bool_decide (node_id n = i))
    | exists n; rewrite ?elem_of_app; by auto ].
Qed.

Lemma fold_fire_node_present els id k text ready st :
  Forall (leaves_node id) ready →
  node_present id k text st →
  node_present id k text (fold_left (fire els) ready st).
Proof.
  intros Hall. revert st. induction Hall as [|t l Ht _ IH]; intros st H;
    [done|].
  simpl. by apply IH, fire_node_present.
Qed.

(** The fade of banner [id] turns the success style off and schedules the
    removal of the banner 300 ms later. *)
Lemma fire_fade els id due st :
  fading id (clock st + 300) (fire els st (due, SuccessFade id)).
Proof.
  unfold fading, fire, dispatch, run_callback. simpl snd.
  open_state st. js_simpl. split; [done|]. apply elem_of_enqueue. by left.
Qed.

(** The turn of the event loop that reaches the fade of banner [id] leaves
    the banner in the document, the success style off and the removal
    scheduled 300 ms after that turn. *)
Lemma tick_fades els id k text due ms st :
  StronglySorted due_le (timers st) →
  Forall (leaves_node id) (timers st) →
  (due, SuccessFade id) ∈ timers st → due ≤ clock st + ms →
  node_present id k text st →
  node_present id k text (tick els ms st) ∧
  fading id (clock st + ms + 300) (tick els ms st).
Proof.
  intros Hs Hkeep Hin Hdue Hp. unfold tick. simpl.
  destruct (split_due (clock st + ms) (timers st)) as [ready rest] eqn:Hsplit.
  destruct (split_due_spec _ _ _ _ Hsplit) as [Hq _].
  pose proof (split_due_rest _ _ _ _ Hs Hsplit) as Hrest.
  rewrite Hq in Hin, Hkeep. apply Forall_app in Hkeep as [Hkeep _].
  apply elem_of_app in Hin as [Hin|Hin].
  2:{ rewrite Forall_forall in Hrest. specialize (Hrest _ Hin).
      simpl in *. lia. }
  apply list_elem_of_split in Hin as (r1 & r2 & ->).
  apply Forall_app in Hkeep as [Hk1 Hk2].
  inversion Hk2 as [|? ? Hkf Hk3]; subst.
  set (s0 := set_timers rest (set_clock (clock st + ms) st)).
  rewrite fold_left_app. simpl.
  set (s1 := fold_left (fire els) r1 s0).
  assert (Hc1 : clock s1 = clock st + ms).
  { by destruct (fold_fire_clock els r1 s0) as [Hc _]. }
  assert (Hp1 : node_present id k text s1).
  { by apply fold_fire_node_present. }
  assert (H : node_present id k text
                (fold_left (fire els) r2 (fire els s1 (due, SuccessFade id)))
              ∧ fading id (clock st + ms + 300)
                  (fold_left (fire els) r2
                     (fire els s1 (due, SuccessFade id)))).
  { split.
    - apply fold_fire_node_present; [done|]. by apply fire_node_present.
    - apply fold_fire_fading. rewrite <- Hc1. apply fire_fade. }
  exact H.
Qed.

(** X16.  The success banner: shown with the card's success style, faded
    after 3000 ms, removed 300 ms after that.  In a reachable state, on a
    page with the message card, [showSuccessMessage] adds the banner and
    turns the style on; the first turn of the event loop 3000 ms or more
    later turns the style off with the banner still in the document, and a
    turn 300 ms or more after that one leaves the banner out of the
    document. *)
Theorem success_banner_lifetime els st message ms1 ms2 :
  reachable els st →
  elements.messageSection els = true →
  elements.messageCard els = true →
  3000 ≤ ms1 → 300 ≤ ms2 →
  let id := next_node st in
  let st1 := snd (showSuccessMessage els message st) in
  let st2 := tick els ms1 st1 in
  let st3 := tick els ms2 st2 in
  (node_present id SuccessNotification message st1 ∧
   messageCard_success (document st1) = true) ∧
  (node_present id SuccessNotification message st2 ∧
   messageCard_success (document st2) = false) ∧
  node_absent id st3.
Proof.
  intros Hreach Hsec Hcard Hms1 Hms2 id st1 st2 st3.
  pose proof (reachable_wf els st Hreach) as Hwf.
  assert (Hwf1 : queue_wf [] st1).
  { apply (hoare_snd (queue_wf [])); [|done].
    apply (showSuccessMessage_keeps els (queue_wf [])). }
  assert (Hst1 : st1 =
    set_timers (enqueue (clock st + 3000, SuccessFade id) (timers st))
      (set_next_node (S id)
         (with_document
            (λ d, set_body_children
                    (body_children d ++
                     [MkNode id SuccessNotification message
                        (js "slideInRight 0.3s ease-out")])
                    (set_messageCard_success true d)) st))).
  { subst st1 id. unfold showSuccessMessage. rewrite Hsec, Hcard.
    by open_state st. }
  assert (Hp1 : node_present id SuccessNotification message st1).
  { rewrite Hst1. unfold node_present. simpl. eexists.
    split; [apply elem_of_app; right; by apply list_elem_of_singleton|done]. }
  split; [split; [done|by rewrite Hst1]|].
  (* the turn that reaches the fade timer *)
  assert (H2 : node_present id SuccessNotification message st2 ∧
               fading id (clock st1 + ms1 + 300) st2).
  { destruct Hwf as [_ Hok0 _]. destruct Hwf1 as [Hs _ _]. simpl in Hok0.
    apply (tick_fades els id SuccessNotification message (clock st + 3000));
      [done| | | |done].
    - rewrite Hst1. simpl. apply Forall_enqueue. split; [done|].
      eapply Forall_impl; [exact Hok0|]. intros [d cb] Ht.
      unfold timer_ok, leaves_node in *. simpl in *. fold id in Ht.
      destruct cb; try done; lia.
    - rewrite Hst1. simpl. apply elem_of_enqueue. by left.
    - rewrite Hst1. simpl. lia. }
  assert (Hc2 : clock st2 = clock st1 + ms1) by apply tick_clock.
  destruct H2 as [Hp2 [Hs2 Hin2]].
  split; [by split|].
  assert (Hwf2 : queue_wf [] st2) by by apply tick_wf.
  by destruct (tick_removes_node els id (clock st1 + ms1 + 300) ms2 st2
                 Hwf2 Hin2 ltac:(lia)) as [Habs _].
Qed.

Lemma success_banner_lifetime_witness :
  let st := boot page markup empty_storage in
  let st1 := snd (showSuccessMessage page (js "Name updated") st) in
  messageCard_success (document st1) = true ∧
  messageCard_success (document (tick page 3000 st1)) = false ∧
  node_absent 0 (tick page 300 (tick page 3000 st1)).
Proof.
  destruct (success_banner_lifetime page (boot page markup empty_storage)
              (js "Name updated") 3000 300)
    as ([_ H1] & [_ H2] & H3);
    [apply reach_boot | reflexivity | reflexivity
    | vm_compute; discriminate | vm_compute; discriminate |].
  split; [exact H1|]. split; [exact H2 | exact H3].
Defined.

(** X17.  The error banner lives for five seconds.  In a reachable state
    the [window] error listener puts one banner with the fixed text in the
    document, and the first turn of the event loop 5000 ms or more later
    leaves the banner out of the document. *)
Theorem error_banner_is_removed els st ms :
  reachable els st →
  5000 ≤ ms →
  let st' := snd (windowErrorListener st) in
  node_present (next_node st) ErrorNotification
    (js "Something went wrong. Please refresh the page.") st' ∧
  node_absent (next_node st) (tick els ms st').
Proof.
  intros Hreach Hms st'.
  assert (Hwf : queue_wf [] st').
  { apply (hoare_snd (queue_wf [])); [|by apply (reachable_wf els)].
    apply (windowErrorListener_keeps (queue_wf [])). }
  split.
  - subst st'. unfold node_present, windowErrorListener. open_state st.
    eexists. split;
      [apply elem_of_app; right; by apply list_elem_of_singleton|done].
  - apply (tick_removes_node els (next_node st) (clock st + 5000) ms st' Hwf).
    + subst st'. unfold windowErrorListener. open_state st.
      apply elem_of_enqueue. by left.
    + subst st'. unfold windowErrorListener. open_state st. lia.
Qed.

Lemma error_banner_is_removed_witness :
  let st := boot page markup empty_storage in
  let st' := snd (windowErrorListener st) in
  length (body_children (document st')) = 1%nat ∧
  node_absent 0 (tick page 5000 st').
Proof.
  destruct (error_banner_is_removed page (boot page markup empty_storage) 5000)
    as [_ H]; [apply reach_boot | vm_compute; discriminate |].
  split; [reflexivity | exact H].
Defined.

(** ** [debounce] *)

Lemma debounce_call_armed {A} wait (a : A) e :
  Debounce.single e →
  Debounce.armed a (Debounce.now e + wait) (Debounce.executedFunction wait a e)
  ∧ Debounce.calls (Debounce.executedFunction wait a e) = Debounce.calls e
  ∧ Debounce.now (Debounce.executedFunction wait a e) = Debounce.now e.
Proof.
  destruct e as [p h n c l]. unfold Debounce.single, Debounce.armed,
    Debounce.executedFunction, Debounce.clearTimeout, Debounce.setTimeout.
  simpl. intros Hs. destruct p as [|q [|q' p]]; [| |done].
  - destruct h; simpl; (split; [by eexists|done]).
  - subst h. simpl. rewrite filter_cons. simpl.
    destruct (decide (Debounce.ident q ≠ Debounce.ident q)) as [Hne|_];
      [done|].
    rewrite filter_nil. simpl. split; [by eexists|done].
Qed.

Lemma debounce_armed_single {A} (a : A) d e :
  Debounce.armed a d e → Debounce.single e.
Proof.
  intros (i & Hp & Ht). unfold Debounce.single. by rewrite Hp, Ht.
Qed.

Lemma debounce_advance_single {A} ms (e : Debounce.Env (A:=A)) :
  Debounce.single e → Debounce.single (Debounce.advance ms e).
Proof.
  destruct e as [p h n c l]. unfold Debounce.single, Debounce.advance.
  simpl. intros Hs. destruct p as [|q [|q' p]]; [done| |done].
  simpl. destruct (Debounce.due q <=? c + ms); [|done].
  unfold Debounce.later, Debounce.clearTimeout. simpl. by subst h.
Qed.

Lemma debounce_run_single {A} wait acts (e : Debounce.Env (A:=A)) :
  Debounce.single e → Debounce.single (Debounce.run wait acts e).
Proof.
  revert e. induction acts as [|i acts IH]; intros e He; [done|].
  simpl. apply IH. destruct i as [a|ms]; simpl.
  - destruct (debounce_call_armed wait a e He) as [Ha _].
    by eapply debounce_armed_single.
  - by apply debounce_advance_single.
Qed.

(** While the pending timer is not due, a turn of the event loop changes
    nothing but the clock. *)
Lemma debounce_advance_early {A} (a : A) d ms e :
  Debounce.armed a d e → Debounce.now e + ms < d →
  Debounce.armed a d (Debounce.advance ms e) ∧
  Debounce.calls (Debounce.advance ms e) = Debounce.calls e ∧
  Debounce.now (Debounce.advance ms e) = Debounce.now e + ms.
Proof.
  destruct e as [p h n c l]. unfold Debounce.armed, Debounce.advance.
  simpl. intros (i & -> & ->) Hlt. simpl.
  destruct (N.leb_spec d (c + ms)); [lia|]. simpl. split; [by eexists|done].
Qed.

(** Once the pending timer is due, the turn runs [func] with the arguments
    of the call that set the timer. *)
Lemma debounce_advance_due {A} (a : A) d ms e :
  Debounce.armed a d e → d ≤ Debounce.now e + ms →
  Debounce.pending (Debounce.advance ms e) = [] ∧
  Debounce.calls (Debounce.advance ms e) = Debounce.calls e ++ [a].
Proof.
  destruct e as [p h n c l]. unfold Debounce.armed, Debounce.advance.
  simpl. intros (i & -> & ->) Hle. simpl.
  destruct (N.leb_spec d (c + ms)); [|lia]. done.
Qed.

Lemma debounce_burst_armed {A} wait (l : list (N * A)) a d e :
  Forall (λ ga, fst ga < wait) l →
  Debounce.armed a d e → d = Debounce.now e + wait →
  let e' := Debounce.run wait
              (flat_map (λ ga, [Debounce.Idle (fst ga);
                                Debounce.Call (snd ga)]) l) e in
  Debounce.armed (List.last (map snd l) a) (Debounce.now e' + wait) e' ∧
  Debounce.calls e' = Debounce.calls e.
Proof.
  intros Hall. revert a d e.
  induction Hall as [|[g b] l Hg _ IH]; intros a d e Ha Hd; simpl in *.
  { subst d. done. }
  destruct (debounce_advance_early a d g e Ha ltac:(lia)) as (Ha1 & Hc1 & Hn1).
  destruct (debounce_call_armed wait b (Debounce.advance g e)
              (debounce_armed_single _ _ _ Ha1)) as (Ha2 & Hc2 & Hn2).
  destruct (IH b _ _ Ha2 ltac:(by rewrite Hn2)) as [Ha3 Hc3].
  split.
  - replace (match map snd l with [] => b | _ :: _ => List.last (map snd l) a end)
      with (List.last (map snd l) b); [done|].
    clear. destruct (map snd l) as [|x m]; [done|].
    revert x. induction m as [|y m IHm]; intros x; [done|].
    simpl in *. apply IHm.
  - by rewrite Hc3, Hc2, Hc1.
Qed.

(** X18.  [debounce] lets a burst of calls through once.  From any state
    the debounced function can be in, take a call followed by further
    calls, each less than [wait] ms after the one before: during the burst
    [func] is not called, and the first turn of the event loop [wait] ms or
    more after the last call of the burst calls [func] exactly once, with
    the arguments of that last call. *)
Theorem debounce_burst_runs_once {A} wait acts (a : A) l ms :
  Forall (λ ga, fst ga < wait) l →
  wait ≤ ms →
  let e := Debounce.run wait acts Debounce.start in
  let e1 := Debounce.run wait (Debounce.burst a l) e in
  Debounce.calls e1 = Debounce.calls e ∧
  Debounce.calls (Debounce.advance ms e1) =
    Debounce.calls e ++ [List.last (map snd l) a] ∧
  Debounce.pending (Debounce.advance ms e1) = [].
Proof.
  intros Hall Hms e e1.
  assert (He : Debounce.single e) by by apply debounce_run_single.
  destruct (debounce_call_armed wait a e He) as (Ha & Hc & Hn).
  destruct (debounce_burst_armed wait l a _ _ Hall Ha
              ltac:(by rewrite Hn)) as [Ha1 Hc1].
  change (Debounce.run wait _ (Debounce.executedFunction wait a e))
    with e1 in Ha1, Hc1.
  split; [by rewrite Hc1|].
  destruct (debounce_advance_due _ _ ms e1 Ha1 ltac:(lia)) as [Hp Hcs].
  split; [|done]. by rewrite Hcs, Hc1, Hc.
Qed.

Lemma debounce_burst_runs_once_witness :
  let e1 := Debounce.run 250
              (Debounce.burst 1%nat [(100, 2%nat); (249, 3%nat)])
              Debounce.start in
  Debounce.calls e1 = [] ∧
  Debounce.calls (Debounce.advance 250 e1) = [3%nat].
Proof.
  destruct (debounce_burst_runs_once 250 [] 1%nat
              [(100, 2%nat); (249, 3%nat)] 250) as (H1 & H2 & _).
  - repeat constructor.
  - vm_compute; discriminate.
  - split; [exact H1 | exact H2].
Defined.
